(** * sanic-cookies: the session dictionary, its lock keeper and the AsyncPG store

    A shallow embedding of [sanic_cookies/models.py] (the classes
    [LockKeeper] and [SessionDict]) and of
    [sanic_cookies/interfaces/asyncpg.py] (the class [AsyncPG]), with the
    properties of the specification stated over it.

    Conventions of the embedding:
    - a Python [str] key is a [string] whose characters are the code points
      0..255, and [lower] is [str.lower] on that range;
    - a Python [dict] is a [gmap];
    - a method of [SessionDict] is a computation of the monad [M]: it reads
      and writes the object ([self]) and the process-wide state ([World]),
      and either returns, raises, or suspends for ever on a lock;
    - the global [lock_keeper], the warnings issued and the calls made to
      the session backend live in [World];
    - asyncio tasks interleave at their suspension points only; the
      relation [step] lists them. *)

From Stdlib Require Import ZArith Ascii String.
From stdpp Require Import gmap strings list fin_maps.

Local Open Scope string_scope.

(** ** Keys: [str.lower] *)

(** [str.lower] on one character with code point below 256: the letters
    A-Z and the Latin-1 capitals U+00C0..U+00DE (all but the multiplication
    sign U+00D7) move up by 32, every other character is its own lower
    case. *)
Definition lower_char (c : ascii) : ascii :=
  let n := N_of_ascii c in
  if ((65 <=? n) && (n <=? 90)
      || (192 <=? n) && (n <=? 222) && negb (n =? 215))%N
  then ascii_of_N (n + 32)
  else c.

Fixpoint lower (s : string) : string :=
  match s with
  | EmptyString => EmptyString
  | String c s' => String (lower_char c) (lower s')
  end.

(** Two characters that are the same letter, whatever their case. *)
Definition same_letter (c d : ascii) : Prop :=
  c = d \/ lower_char c = d \/ c = lower_char d.

(** [case_variant k k']: [k'] is [k] with the case of some of its letters
    changed. *)
Inductive case_variant : string -> string -> Prop :=
| cv_empty : case_variant EmptyString EmptyString
| cv_char c d s t :
    same_letter c d -> case_variant s t ->
    case_variant (String c s) (String d t).

(** ** Results of a call *)

Inductive exn :=
| KeyError (key : string)
| AttributeError (key : string)
| AssertionError
| BackendFailure (what : string).

(** A call returns, raises, or never resumes because it waits on the lock
    object at address [l]. *)
Inductive result (A : Type) :=
| Ok (a : A)
| Raise (e : exn)
| Blocked (l : nat).
Arguments Ok {A} a.
Arguments Raise {A} e.
Arguments Blocked {A} l.

Definition is_Ok {A} (r : result A) : bool :=
  match r with Ok _ => true | _ => false end.

(** ** asyncio.Lock, as far as [LockKeeper] uses it *)

(** A lock object: its [_locked] flag and its queue of waiters. A waiter is
    the task that waits and whether its future has been resolved; only
    [Lock.release] resolves a future. *)
Record Lock := mkLock {
  lk_locked : bool;
  lk_waiters : list (nat * bool)
}.

(** [Lock()] *)
Definition new_Lock : Lock := mkLock false [].

(** [Lock.locked()] *)
Definition Lock_locked (lk : Lock) : bool := lk_locked lk.

(** [await lock.acquire()] by task [me], up to its suspension point: a free
    lock without waiters is taken at once ([true]); otherwise the task
    queues a future and suspends ([false]). *)
Definition Lock_acquire (me : nat) (lk : Lock) : Lock * bool :=
  if negb (lk_locked lk) && bool_decide (lk_waiters lk = [])
  then (mkLock true (lk_waiters lk), true)
  else (mkLock (lk_locked lk) (lk_waiters lk ++ [(me, false)])%list, false).

(** The rest of [acquire] for the suspended task [me], run once its future
    has been resolved: the future leaves the queue and the lock is taken. *)
Definition Lock_resume (me : nat) (lk : Lock) : option Lock :=
  if bool_decide ((me, true) ∈ lk_waiters lk)
  then Some (mkLock true (filter (λ w, w.1 ≠ me) (lk_waiters lk)))
  else None.

(** ** LockKeeper *)

(** The lock objects created so far, by address, and the class attribute
    [acquired_locks], a dict from session id to lock object. *)
Record LockKeeper := mkKeeper {
  objects : list Lock;
  acquired_locks : gmap string nat
}.

Definition empty_keeper : LockKeeper := mkKeeper [] ∅.

Inductive grant := Granted | Suspended (l : nat).

(** [LockKeeper.acquire], called by task [me]. A lock object is always
    true in a condition, so [if existing_lock] tests the presence of the
    entry. *)
Definition acquire (me : nat) (id : string) (k : LockKeeper)
  : LockKeeper * grant :=
  match acquired_locks k !! id with
  | Some l =>
      (* await existing_lock.acquire() *)
      match objects k !! l with
      | Some lk =>
          let '(lk', now) := Lock_acquire me lk in
          (mkKeeper (<[l := lk']> (objects k)) (acquired_locks k),
           if now then Granted else Suspended l)
      | None => (k, Suspended l)
      end
  | None =>
      (* new_lock = Lock(); await new_lock.acquire() *)
      let '(lk', _) := Lock_acquire me new_Lock in
      (* self.acquired_locks[sid] = new_lock *)
      (mkKeeper (objects k ++ [lk'])%list
                (<[id := length (objects k)]> (acquired_locks k)),
       Granted)
  end.

(** [LockKeeper.release]: the call [existing_lock.release()] is commented
    out in the source; the entry is deleted and the lock object is left as
    it is. *)
Definition release (id : string) (k : LockKeeper) : LockKeeper :=
  match acquired_locks k !! id with
  | Some _ => mkKeeper (objects k) (delete id (acquired_locks k))
  | None => k
  end.

(** The waiters of [id]'s registered lock that are still suspended. *)
Definition waiters_of (id : string) (k : LockKeeper) : list nat :=
  match acquired_locks k !! id with
  | Some l =>
      match objects k !! l with
      | Some lk => (filter (λ w, w.2 = false) (lk_waiters lk)).*1
      | None => []
      end
  | None => []
  end.

(** Every lock object is taken and none of its waiters has a resolved
    future. *)
Definition keeper_inv (k : LockKeeper) : Prop :=
  forall l lk, objects k !! l = Some lk ->
    lk_locked lk = true /\ forall w, w ∈ lk_waiters lk -> w.2 = false.

(** Every entry of [acquired_locks] is the address of a lock object. *)
Definition registry_inv (k : LockKeeper) : Prop :=
  forall id l, acquired_locks k !! id = Some l -> l < length (objects k).

(** ** SessionDict *)

Inductive warning :=
| UNLOCKED_WARNING_MSG
| UNLOCKED_LOCKED_ACCESS_MIX_MSG.

(** What an attribute lookup on a [SessionDict] evaluates to. *)
Inductive attribute :=
| InstanceAttribute (name : string)
| BoundMethod (name : string)
| DictMethod (name : string).

Section Session.

Context {value B : Type}.

Local Abbreviation payload := (gmap string value).

(** The fields set by [__init__]; [session] and [request] are the handles
    through which the backend is reached ([_fetch_sess], [_post_sess]
    below). *)
Record SessionDict := mkSessionDict {
  store : payload;
  sid : string;
  warn_lock : bool;
  is_modified : bool
}.

(** [x or {}] *)
Definition or_empty (x : option payload) : payload :=
  match x with
  | Some p => if decide (p = ∅) then ∅ else p
  | None => ∅
  end.

(** [SessionDict.__init__] *)
Definition init (initial : option payload) (id : string) (warn : bool)
  : SessionDict :=
  mkSessionDict (or_empty initial) id warn false.

(** What the process does that an observer can see, in order. *)
Inductive event :=
| Warned (m : warning)
| AcquireCalled (id : string)
| ReleaseCalled (id : string)
| FetchCalled (id : string)
| PostCalled (id : string) (p : payload).

Record World := mkWorld {
  lock_keeper : LockKeeper;
  backend : B;
  trace : list event
}.

Record Cfg := mkCfg {
  self : SessionDict;
  world : World
}.

(** The two methods of the session object that [SessionDict] calls. They
    are not part of the files embedded here: they are parameters, a
    function of the backend state that returns ([inr]) or raises ([inl]). *)
Variable _fetch_sess : string -> B -> (exn + option payload) * B.
Variable _post_sess : string -> payload -> B -> (exn + unit) * B.

(** *** The monad of methods *)

Definition M (A : Type) : Type := Cfg -> result A * Cfg.

#[local] Instance M_ret : MRet M := λ A a c, (Ok a, c).

#[local] Instance M_bind : MBind M := λ A1 A2 f m c,
  match m c with
  | (Ok a, c') => f a c'
  | (Raise e, c') => (Raise e, c')
  | (Blocked l, c') => (Blocked l, c')
  end.

Definition raise {A} (e : exn) : M A := λ c, (Raise e, c).

Definition block {A} (l : nat) : M A := λ c, (Blocked l, c).

Definition gets {A} (f : Cfg -> A) : M A := λ c, (Ok (f c), c).

Definition set_store (p : payload) : M unit := λ c,
  let s := self c in
  (Ok (), mkCfg (mkSessionDict p (sid s) (warn_lock s) (is_modified s))
                (world c)).

Definition set_is_modified (b : bool) : M unit := λ c,
  let s := self c in
  (Ok (), mkCfg (mkSessionDict (store s) (sid s) (warn_lock s) b) (world c)).

Definition set_lock_keeper (k : LockKeeper) : M unit := λ c,
  let w := world c in
  (Ok (), mkCfg (self c) (mkWorld k (backend w) (trace w))).

Definition emit (e : event) : M unit := λ c,
  let w := world c in
  (Ok (), mkCfg (self c)
            (mkWorld (lock_keeper w) (backend w) (trace w ++ [e])%list)).

(** [warnings.warn(...)] *)
Definition warn (m : warning) : M unit := emit (Warned m).

(** [assert b] *)
Definition py_assert (b : bool) : M unit :=
  if b then mret () else raise AssertionError.

(** A call of the backend through the session object. *)
Definition call_backend {A} (f : B -> (exn + A) * B) : M A := λ c,
  let w := world c in
  let '(r, b') := f (backend w) in
  let c' := mkCfg (self c) (mkWorld (lock_keeper w) b' (trace w)) in
  match r with
  | inr a => (Ok a, c')
  | inl e => (Raise e, c')
  end.

(** *** The methods *)

(** [SessionDict.is_locked] *)
Definition is_locked : M bool :=
  s ← gets self;
  k ← gets (λ c, lock_keeper (world c));
  match acquired_locks k !! sid s with
  | Some l => mret (from_option Lock_locked false (objects k !! l))
  | None => mret false
  end.

(** [SessionDict._warn_if_not_locked] *)
Definition _warn_if_not_locked : M unit :=
  locked ← is_locked;
  s ← gets self;
  if negb locked && warn_lock s then warn UNLOCKED_WARNING_MSG else mret ().

(** [SessionDict.__getitem__] *)
Definition __getitem__ (key : string) : M value :=
  _warn_if_not_locked;;
  s ← gets self;
  match store s !! lower key with
  | Some v => mret v
  | None => raise (KeyError (lower key))
  end.

(** [SessionDict.__setitem__] *)
Definition __setitem__ (key : string) (v : value) : M unit :=
  _warn_if_not_locked;;
  set_is_modified true;;
  s ← gets self;
  set_store (<[lower key := v]> (store s)).

(** [SessionDict.__delitem__] *)
Definition __delitem__ (key : string) : M unit :=
  _warn_if_not_locked;;
  set_is_modified true;;
  s ← gets self;
  match store s !! lower key with
  | Some _ => set_store (delete (lower key) (store s))
  | None => raise (KeyError (lower key))
  end.

(** [SessionDict.__iter__]: the keys of the store (their order is not
    modelled). *)
Definition __iter__ : M (list string) :=
  s ← gets self;
  mret (map_to_list (store s)).*1.

(** [SessionDict.__len__] *)
Definition __len__ : M nat :=
  s ← gets self;
  mret (size (store s)).

(** [SessionDict.__getattr__], the hook Python calls when the ordinary
    lookup of an attribute has failed. *)
Definition __getattr__ (key : string) : M attribute :=
  if bool_decide (key ∈ ["pop"; "popitem"; "update"; "clear"; "setdefault"])
  then
    _warn_if_not_locked;;
    set_is_modified true;;
    mret (DictMethod key)
  else raise (AttributeError key).

(** [SessionDict.reset] *)
Definition reset : M unit :=
  s ← gets self;
  if decide (store s = ∅) then mret ()
  else
    _warn_if_not_locked;;
    set_store ∅;;
    set_is_modified true.

(** [SessionDict.__aenter__], up to the suspension point of
    [lock_keeper.acquire]. *)
Definition aenter_acquire (me : nat) : M grant :=
  s ← gets self;
  (if is_modified s then warn UNLOCKED_LOCKED_ACCESS_MIX_MSG else mret ());;
  emit (AcquireCalled (sid s));;
  k ← gets (λ c, lock_keeper (world c));
  let '(k', g) := acquire me (sid s) k in
  set_lock_keeper k';;
  mret g.

(** [SessionDict.__aenter__], from the grant of the lock on. *)
Definition aenter_load : M unit :=
  locked ← is_locked;
  py_assert locked;;
  s ← gets self;
  emit (FetchCalled (sid s));;
  r ← call_backend (_fetch_sess (sid s));
  set_store (or_empty r).

(** [SessionDict.__aenter__] for a task that nobody wakes up. *)
Definition __aenter__ (me : nat) : M unit :=
  g ← aenter_acquire me;
  match g with
  | Granted => aenter_load
  | Suspended l => block l
  end.

(** [SessionDict.__aexit__], the write-back. *)
Definition aexit_flush : M unit :=
  s ← gets self;
  if is_modified s then
    emit (PostCalled (sid s) (store s));;
    call_backend (_post_sess (sid s) (store s));;
    set_is_modified false
  else mret ().

(** [SessionDict.__aexit__], from the call of [lock_keeper.release] on. *)
Definition aexit_release : M unit :=
  s ← gets self;
  emit (ReleaseCalled (sid s));;
  k ← gets (λ c, lock_keeper (world c));
  set_lock_keeper (release (sid s) k);;
  locked ← is_locked;
  py_assert (negb locked).

(** [SessionDict.__aexit__] *)
Definition __aexit__ : M unit :=
  aexit_flush;;
  aexit_release.

(** [async with session: body]. Python does not call [__aexit__] when
    [__aenter__] raises; it calls it when the body returns or raises, and
    [__aexit__] returns [None], so an exception of the body is raised again
    afterwards. *)
Definition async_with {A} (me : nat) (body : M A) : M A := λ c,
  match __aenter__ me c with
  | (Ok _, c1) =>
      match body c1 with
      | (Blocked l, c2) => (Blocked l, c2)
      | (rb, c2) =>
          match __aexit__ c2 with
          | (Ok _, c3) => (rb, c3)
          | (Raise e, c3) => (Raise e, c3)
          | (Blocked l, c3) => (Blocked l, c3)
          end
      end
  | (Raise e, c1) => (Raise e, c1)
  | (Blocked l, c1) => (Blocked l, c1)
  end.

(** *** What the methods are compared with *)

(** What [is_locked] returns: the lock of the object's session id is held
    by someone. *)
Definition locked_now (c : Cfg) : bool :=
  let k := lock_keeper (world c) in
  match acquired_locks k !! sid (self c) with
  | Some l => from_option Lock_locked false (objects k !! l)
  | None => false
  end.

(** The warnings [_warn_if_not_locked] issues. *)
Definition access_warnings (c : Cfg) : list event :=
  if negb (locked_now c) && warn_lock (self c)
  then [Warned UNLOCKED_WARNING_MSG] else [].

(** The configuration after the events [es]. *)
Definition logged (es : list event) (c : Cfg) : Cfg :=
  let w := world c in
  mkCfg (self c) (mkWorld (lock_keeper w) (backend w) (trace w ++ es)%list).

(** The same object with the warning of unguarded accesses switched off. *)
Definition silenced (c : Cfg) : Cfg :=
  let s := self c in
  mkCfg (mkSessionDict (store s) (sid s) false (is_modified s)) (world c).

(** Two runs of a method that return or raise the same and leave the same
    payload, dirty flag, locks and backend. *)
Definition same_access {A} (r r' : result A * Cfg) : Prop :=
  r.1 = r'.1 /\
  store (self r.2) = store (self r'.2) /\
  is_modified (self r.2) = is_modified (self r'.2) /\
  lock_keeper (world r.2) = lock_keeper (world r'.2) /\
  backend (world r.2) = backend (world r'.2).

(** The object of [c] with another payload and dirty flag. *)
Definition updated (p : payload) (dirty : bool) (c : Cfg) : Cfg :=
  let s := self c in
  mkCfg (mkSessionDict p (sid s) (warn_lock s) dirty) (world c).

(** The configuration with other locks, and with another backend state. *)
Definition with_lock_keeper (k : LockKeeper) (c : Cfg) : Cfg :=
  let w := world c in
  mkCfg (self c) (mkWorld k (backend w) (trace w)).

Definition with_backend (b : B) (c : Cfg) : Cfg :=
  let w := world c in
  mkCfg (self c) (mkWorld (lock_keeper w) b (trace w)).

(** What [__aenter__] lets an observer see before it may suspend. *)
Definition entry_events (c : Cfg) : list event :=
  ((if is_modified (self c)
    then [Warned UNLOCKED_LOCKED_ACCESS_MIX_MSG] else [])
   ++ [AcquireCalled (sid (self c))])%list.

(** The configuration in which [__aenter__] of task [me] returns when the
    lock is free and the fetch returns [r] and leaves the backend [b']. *)
Definition entered (me : nat) (r : option payload) (b' : B) (c : Cfg) : Cfg :=
  let id := sid (self c) in
  updated (or_empty r) (is_modified (self c))
    (with_backend b'
       (with_lock_keeper (acquire me id (lock_keeper (world c))).1
          (logged (entry_events c ++ [FetchCalled id]) c))).

(** *** Attribute lookup *)

(** The attributes [__init__] stores in the instance. *)
Definition instance_attributes : list string :=
  ["store"; "sid"; "session"; "warn_lock"; "is_modified"; "request"].

(** The names bound in the body of [class SessionDict]. *)
Definition SessionDict_attributes : list string :=
  ["__init__"; "_warn_if_not_locked"; "__getitem__"; "__setitem__";
   "__delitem__"; "__iter__"; "__len__"; "__repr__"; "__str__";
   "__getattr__"; "reset"; "is_locked"; "__aenter__"; "__aexit__"].

(** The methods [SessionDict] inherits from its base class
    [collections.abc.MutableMapping]: the mixin methods of
    [MutableMapping] and of [Mapping]. *)
Definition MutableMapping_attributes : list string :=
  ["pop"; "popitem"; "clear"; "update"; "setdefault";
   "get"; "keys"; "items"; "values"; "__contains__"; "__eq__"; "__ne__";
   "__reversed__"; "__class_getitem__"; "__subclasshook__"].

(** The attributes every object has (CPython 3.11). *)
Definition object_attributes : list string :=
  ["__class__"; "__delattr__"; "__dict__"; "__dir__"; "__doc__";
   "__format__"; "__ge__"; "__getattribute__"; "__getstate__"; "__gt__";
   "__hash__"; "__init_subclass__"; "__le__"; "__lt__"; "__module__";
   "__new__"; "__reduce__"; "__reduce_ex__"; "__setattr__"; "__sizeof__";
   "__slots__"; "__weakref__"; "__abstractmethods__"; "_abc_impl"].

(** What the ordinary lookup finds on the class and its bases. *)
Definition class_attributes : list string :=
  (SessionDict_attributes ++ MutableMapping_attributes
   ++ object_attributes)%list.

(** [session.name], that is [getattr(session, name)]: the instance, then
    the class and its bases, and [__getattr__] only when those fail. *)
Definition getattr (name : string) : M attribute :=
  if bool_decide (name ∈ instance_attributes)
  then mret (InstanceAttribute name)
  else if bool_decide (name ∈ class_attributes)
  then mret (BoundMethod name)
  else __getattr__ name.

(** *** Sequences of public operations *)

Inductive op :=
| Get (key : string)
| Set_ (key : string) (v : value)
| Del (key : string)
| Reset
| Getattr (name : string)
| Enter
| Exit.

Definition exec (me : nat) (o : op) : M unit :=
  match o with
  | Get key => __getitem__ key;; mret ()
  | Set_ key v => __setitem__ key v
  | Del key => __delitem__ key
  | Reset => reset
  | Getattr name => getattr name;; mret ()
  | Enter => __aenter__ me
  | Exit => __aexit__
  end.

(** The operations of the mapping interface, those a scope's body uses. *)
Definition mapping_op (o : op) : bool :=
  match o with
  | Enter | Exit => false
  | _ => true
  end.

(** The operations that read: an item read and an attribute lookup. *)
Definition read_op (o : op) : bool :=
  match o with
  | Get _ | Getattr _ => true
  | _ => false
  end.

(** The body of a scope: operations in sequence; the first that raises
    ends the body. *)
Fixpoint body_of (me : nat) (os : list op) : M unit :=
  match os with
  | [] => mret ()
  | o :: os' => exec me o;; body_of me os'
  end.

(** [c'] differs from [c] in the payload, the dirty flag and the trace at
    most. *)
Definition frame (c c' : Cfg) : Prop :=
  lock_keeper (world c') = lock_keeper (world c) /\
  backend (world c') = backend (world c) /\
  sid (self c') = sid (self c) /\
  warn_lock (self c') = warn_lock (self c).

(** The scope of task [me] around [body], entered in [c], leaves no lock
    for its session id when it raises. *)
Definition releases_when_raising {A} (me : nat) (body : M A) (c : Cfg)
  : Prop :=
  forall e c', async_with me body c = (Raise e, c') ->
    acquired_locks (lock_keeper (world c')) !! sid (self c') = None.

(** The exit of a scope, left in [c], has written the store back when the
    dirty flag was set, has called [release] after that in either case,
    and leaves the dirty flag unset. *)
Definition exit_writes_back_then_releases (c : Cfg) : Prop :=
  let id := sid (self c) in
  let c' := (__aexit__ c).2 in
  trace (world c')
    = (trace (world c)
       ++ (if is_modified (self c)
           then [PostCalled id (store (self c))] else [])
       ++ [ReleaseCalled id])%list /\
  is_modified (self c') = false.

(** [since hit clear me os c seen]: run [os] from [c] (an operation that
    raises is followed by the next one, an operation that suspends for ever
    ends the run) and say whether an operation that [hit]s has run since
    the last one that [clear]ed, starting from [seen]. *)
Fixpoint since (hit : op -> Cfg -> bool) (clear : op -> Cfg -> bool)
    (me : nat) (os : list op) (c : Cfg) (seen : bool) : Cfg * bool :=
  match os with
  | [] => (c, seen)
  | o :: os' =>
      let '(r, c') := exec me o c in
      let seen' := if clear o c then false else seen || hit o c in
      match r with
      | Blocked _ => (c', seen')
      | _ => since hit clear me os' c' seen'
      end
  end.

(** The operation mutates the in-memory payload: an assignment to a key, a
    deletion of a key that is there, a reset of a payload that is not
    empty. *)
Definition mutates (o : op) (c : Cfg) : bool :=
  match o with
  | Set_ _ _ => true
  | Del key => bool_decide (is_Some (store (self c) !! lower key))
  | Reset => bool_decide (store (self c) ≠ ∅)
  | _ => false
  end.

(** The operation writes the payload back with success. *)
Definition writes_back (o : op) (c : Cfg) : bool :=
  match o with
  | Exit => is_modified (self c) && is_Ok (aexit_flush c).1
  | _ => false
  end.

(** The operation loads the payload from the backend, or writes it back
    with success. *)
Definition syncs (me : nat) (o : op) (c : Cfg) : bool :=
  match o with
  | Enter => is_Ok (__aenter__ me c).1
  | _ => writes_back o c
  end.

(** The operation sets the dirty flag: an assignment to a key, a deletion
    (also of a key that is not there), a reset of a payload that is not
    empty. *)
Definition marks (o : op) (c : Cfg) : bool :=
  match o with
  | Set_ _ _ | Del _ => true
  | Reset => bool_decide (store (self c) ≠ ∅)
  | _ => false
  end.

(** After the run of [os] from [c], a set dirty flag is a witness that an
    operation that [hit]s has run since the last one that [clear]ed. *)
Definition dirty_implies (hit clear : op -> Cfg -> bool)
    (me : nat) (os : list op) (c : Cfg) : Prop :=
  is_modified (self (since hit clear me os c false).1) = true ->
  (since hit clear me os c false).2 = true.

(** *** Concurrent tasks *)

(** Where a task that runs [async with session: body] is. *)
Inductive pc :=
| Start
| Waiting (l : nat)
| Holding
| Body
| Flushed
| Done
| Failed (e : exn).

Record Task := mkTask {
  view : SessionDict;
  at_pc : pc
}.

Record System := mkSystem {
  shared : World;
  tasks : list Task
}.

(** The task is between the grant of the lock and its release. *)
Definition critical (p : pc) : bool :=
  match p with
  | Holding | Body | Flushed => true
  | _ => false
  end.

Definition after_acquire (g : grant) : pc :=
  match g with
  | Granted => Holding
  | Suspended l => Waiting l
  end.

Definition after {A} (r : result A) (next : pc) : pc :=
  match r with
  | Ok _ => next
  | Raise e => Failed e
  | Blocked l => Waiting l
  end.

Definition resume_lock (l : nat) (lk : Lock) (w : World) : World :=
  let k := lock_keeper w in
  mkWorld (mkKeeper (<[l := lk]> (objects k)) (acquired_locks k))
          (backend w) (trace w).

(** One task runs from a suspension point to the next. *)
Inductive step : System -> System -> Prop :=
| step_acquire σ i t g c' :
    tasks σ !! i = Some t -> at_pc t = Start ->
    aenter_acquire i (mkCfg (view t) (shared σ)) = (Ok g, c') ->
    step σ (mkSystem (world c')
              (<[i := mkTask (self c') (after_acquire g)]> (tasks σ)))
| step_resume σ i t l lk lk' :
    tasks σ !! i = Some t -> at_pc t = Waiting l ->
    objects (lock_keeper (shared σ)) !! l = Some lk ->
    Lock_resume i lk = Some lk' ->
    step σ (mkSystem (resume_lock l lk' (shared σ))
              (<[i := mkTask (view t) Holding]> (tasks σ)))
| step_load σ i t r c' :
    tasks σ !! i = Some t -> at_pc t = Holding ->
    aenter_load (mkCfg (view t) (shared σ)) = (r, c') ->
    step σ (mkSystem (world c')
              (<[i := mkTask (self c') (after r Body)]> (tasks σ)))
| step_body σ i t o r c' :
    tasks σ !! i = Some t -> at_pc t = Body -> mapping_op o = true ->
    exec i o (mkCfg (view t) (shared σ)) = (r, c') ->
    step σ (mkSystem (world c')
              (<[i := mkTask (self c') Body]> (tasks σ)))
| step_flush σ i t r c' :
    tasks σ !! i = Some t -> at_pc t = Body ->
    aexit_flush (mkCfg (view t) (shared σ)) = (r, c') ->
    step σ (mkSystem (world c')
              (<[i := mkTask (self c') (after r Flushed)]> (tasks σ)))
| step_release σ i t r c' :
    tasks σ !! i = Some t -> at_pc t = Flushed ->
    aexit_release (mkCfg (view t) (shared σ)) = (r, c') ->
    step σ (mkSystem (world c')
              (<[i := mkTask (self c') (after r Done)]> (tasks σ))).

(** The step of task [i] when it has one: the scheduler runs [i] from its
    suspension point to the next; a task in its body leaves the body. *)
Definition advance (i : nat) (σ : System) : option System :=
  match tasks σ !! i with
  | None => None
  | Some t =>
      let c := mkCfg (view t) (shared σ) in
      let moved (c' : Cfg) (p : pc) :=
        Some (mkSystem (world c') (<[i := mkTask (self c') p]> (tasks σ))) in
      match at_pc t with
      | Start =>
          match aenter_acquire i c with
          | (Ok g, c') => moved c' (after_acquire g)
          | _ => None
          end
      | Waiting l =>
          match objects (lock_keeper (shared σ)) !! l with
          | Some lk =>
              match Lock_resume i lk with
              | Some lk' =>
                  Some (mkSystem (resume_lock l lk' (shared σ))
                          (<[i := mkTask (view t) Holding]> (tasks σ)))
              | None => None
              end
          | None => None
          end
      | Holding => let '(r, c') := aenter_load c in moved c' (after r Body)
      | Body => let '(r, c') := aexit_flush c in moved c' (after r Flushed)
      | Flushed => let '(r, c') := aexit_release c in moved c' (after r Done)
      | Done | Failed _ => None
      end
  end.

(** The tasks of [order] run one after the other, each for one step. *)
Fixpoint schedule (order : list nat) (σ : System) : option System :=
  match order with
  | [] => Some σ
  | i :: order' =>
      match advance i σ with
      | Some σ' => schedule order' σ'
      | None => None
      end
  end.

(** The systems to start from: no lock has been created and every task is
    about to enter its scope. *)
Definition initial (σ : System) : Prop :=
  lock_keeper (shared σ) = empty_keeper /\
  Forall (λ t, at_pc t = Start) (tasks σ).

Definition reachable (σ : System) : Prop :=
  exists σ0, initial σ0 /\ rtc step σ0 σ.

(** The id of every task between grant and release has a lock in
    [acquired_locks], and no two such tasks have the same id. *)
Definition tasks_inv (k : LockKeeper) (ts : list Task) : Prop :=
  (forall i t, ts !! i = Some t -> critical (at_pc t) = true ->
     is_Some (acquired_locks k !! sid (view t))) /\
  (forall i j ti tj, ts !! i = Some ti -> ts !! j = Some tj ->
     critical (at_pc ti) = true -> critical (at_pc tj) = true ->
     sid (view ti) = sid (view tj) -> i = j).

Definition lock_inv (σ : System) : Prop :=
  keeper_inv (lock_keeper (shared σ)) /\
  tasks_inv (lock_keeper (shared σ)) (tasks σ).

End Session.

(** ** A session over an in-memory backend *)

(** The entries kept by the backend, and whether it can be read and
    written. *)
Record MemoryBackend := mkMemory {
  entries : gmap string (gmap string string);
  readable : bool;
  writable : bool
}.

(** Modelled from the spec: the method [_fetch_sess] of the session object
    is not in the embedded files. Sections 4.3 and 6: [fetch] returns the
    payload of the id or absent, never raises for a missing id, and an
    error of the backend propagates as an opaque failure. *)
Definition memory_fetch (id : string) (b : MemoryBackend)
  : (exn + option (gmap string string)) * MemoryBackend :=
  if readable b then (inr (entries b !! id), b)
  else (inl (BackendFailure "fetch"), b).

(** Modelled from the spec: the method [_post_sess] of the session object
    is not in the embedded files. Sections 4.3 and 6: [store] creates or
    overwrites the entry of the id, and an error of the backend propagates
    as an opaque failure. *)
Definition memory_post (id : string) (p : gmap string string)
    (b : MemoryBackend) : (exn + unit) * MemoryBackend :=
  if writable b
  then (inr (), mkMemory (<[id := p]> (entries b)) (readable b) true)
  else (inl (BackendFailure "store"), b).

(** A process in which no lock has been taken yet. *)
Definition fresh_world (b : MemoryBackend) : @World string MemoryBackend :=
  mkWorld empty_keeper b [].

(** A new session dictionary for the id [s], in a fresh process. *)
Definition fresh (b : MemoryBackend) : @Cfg string MemoryBackend :=
  mkCfg (init None "s" true) (fresh_world b).

Definition up : MemoryBackend := mkMemory ∅ true true.

Definition down : MemoryBackend := mkMemory ∅ false false.

Definition read_only : MemoryBackend := mkMemory ∅ true false.

(** [request['session']['foo'] = 'bar'] on a new session dictionary,
    outside of any scope. *)
Definition unguarded_write : @Cfg string MemoryBackend :=
  (__setitem__ "foo" "bar" (fresh up)).2.

(** Two tasks about to enter a scope for the same id, and the system once
    the first of them has been granted the lock. *)
Definition two_tasks : @System string MemoryBackend :=
  mkSystem (fresh_world up)
    [mkTask (init None "s" true) Start; mkTask (init None "s" true) Start].

Definition first_granted : @System string MemoryBackend :=
  let c := mkCfg (init None "s" true) (fresh_world up) in
  let c' := (aenter_acquire 0 c).2 in
  mkSystem (world c') (<[0 := mkTask (self c') Holding]> (tasks two_tasks)).

(** The system once the first task holds the lock and the second has asked
    for it. *)
Definition contended : @System string MemoryBackend :=
  default two_tasks (schedule memory_fetch memory_post [0; 1] two_tasks).

(** The same system once the first task has left its scope. *)
Definition stranded : @System string MemoryBackend :=
  default two_tasks
    (schedule memory_fetch memory_post [0; 1; 0; 0; 0] two_tasks).

(** A new session dictionary that has entered its scope. *)
Definition in_scope : @Cfg string MemoryBackend :=
  (__aenter__ memory_fetch 0 (fresh up)).2.

(** The backend once the payload with the item [foo] has been stored for
    the id [s]. *)
Definition foo_stored : MemoryBackend :=
  (memory_post "s" {["foo" := "bar"]} up).2.

(** A session dictionary in its scope, with an item assigned, over a
    backend that cannot be written. *)
Definition dirty_in_scope : @Cfg string MemoryBackend :=
  (__setitem__ "foo" "bar" (__aenter__ memory_fetch 0 (fresh read_only)).2).2.

(** [async with session: pass] over a backend that cannot be reached, and
    [async with session: session['foo'] = 'bar'] over a backend that
    cannot be written. *)
Definition scope_over_down : result unit * @Cfg string MemoryBackend :=
  async_with memory_fetch memory_post 0
    (body_of memory_fetch memory_post 0 []) (fresh down).

Definition scope_over_read_only : result unit * @Cfg string MemoryBackend :=
  async_with memory_fetch memory_post 0
    (body_of memory_fetch memory_post 0 [Set_ "foo" "bar"])
    (fresh read_only).

(** ** AsyncPG *)

Module AsyncPG.

Section Codec.

Context {payload : Type}.

(** [self.encoder] and [self.decoder] *)
Variable encoder : payload -> string.
Variable decoder : string -> payload.

(** A row of the table [sessions], without its primary key [sid].
    Timestamps are seconds on one time line, read by [NOW()] in the
    database and by [utcnow()] in the client. *)
Record row := mkRow {
  created_at : Z;
  expires_at : option Z;
  val : string
}.

(** [SELECT val FROM sessions WHERE sid = $1 AND expires_at > NOW()]; a
    comparison with NULL selects nothing. *)
Definition select_val (now : Z) (sid : string) (t : gmap string row)
  : option string :=
  match t !! sid with
  | Some r =>
      match expires_at r with
      | Some e => if (e >? now)%Z then Some (val r) else None
      | None => None
      end
  | None => None
  end.

(** [AsyncPG.fetch]; the database clock reads [now]. *)
Definition fetch (now : Z) (sid : string) (t : gmap string row)
  : option payload :=
  match select_val now sid t with
  | Some v => Some (decoder v)
  | None => None
  end.

(** [INSERT INTO sessions(created_at, sid, val, expires_at)
     VALUES(NOW(), $1, $2, $3) ON CONFLICT (sid) DO UPDATE
     SET val = EXCLUDED.val, expires_at = EXCLUDED.expires_at] *)
Definition upsert (now : Z) (sid v : string) (e : Z) (t : gmap string row)
  : gmap string row :=
  match t !! sid with
  | Some r => <[sid := mkRow (created_at r) (Some e) v]> t
  | None => <[sid := mkRow now (Some e) v]> t
  end.

(** [AsyncPG.store]; the database clock reads [now], the client clock
    [utcnow]. *)
Definition store (now utcnow : Z) (sid : string) (expiry : Z)
    (v : option payload) (t : gmap string row) : gmap string row :=
  match v with
  | Some p => upsert now sid (encoder p) (utcnow + expiry) t
  | None => t
  end.

(** [AsyncPG.delete] *)
Definition delete (sid : string) (t : gmap string row) : gmap string row :=
  base.delete sid t.

End Codec.

End AsyncPG.

(** * Properties *)

(** ** Keys *)

Lemma lower_char_idempotent (c : ascii) :
  lower_char (lower_char c) = lower_char c.
Proof. destruct c as [[] [] [] [] [] [] [] []]; reflexivity. Qed.

Lemma same_letter_lower (c d : ascii) :
  same_letter c d -> lower_char c = lower_char d.
Proof.
  intros [-> | [<- | ->]]; auto using lower_char_idempotent.
Qed.

Lemma case_variant_lower (k k' : string) :
  case_variant k k' -> lower k = lower k'.
Proof.
  induction 1 as [| c d s t Hcd _ IH]; simpl; [reflexivity |].
  rewrite (same_letter_lower _ _ Hcd), IH. reflexivity.
Qed.

Lemma case_variant_refl (k : string) : case_variant k k.
Proof. induction k; constructor; auto. left; reflexivity. Qed.

Lemma release_objects (id : string) (k : LockKeeper) :
  objects (release id k) = objects k.
Proof. unfold release. by destruct (acquired_locks k !! id). Qed.

Lemma lower_idempotent (s : string) : lower (lower s) = lower s.
Proof.
  induction s as [| c s IH]; simpl; [reflexivity |].
  by rewrite lower_char_idempotent, IH.
Qed.

Section Properties.

Context {value B : Type}.

Local Abbreviation payload := (gmap string value).

Variable _fetch_sess : string -> B -> (exn + option payload) * B.
Variable _post_sess : string -> payload -> B -> (exn + unit) * B.

Local Abbreviation Cfg := (@Cfg value B).
Local Abbreviation Task := (@Task value).
Local Abbreviation System := (@System value B).

(** *** The warning of an access *)

Lemma is_locked_eq (c : Cfg) : is_locked c = (Ok (locked_now c), c).
Proof.
  unfold is_locked, locked_now, mbind, M_bind, gets; simpl.
  destruct (acquired_locks _ !! _); reflexivity.
Qed.

Lemma logged_nil (c : Cfg) : logged [] c = c.
Proof.
  destruct c as [s [k b t]]. unfold logged; simpl. by rewrite app_nil_r.
Qed.

Lemma warn_if_not_locked_eq (c : Cfg) :
  _warn_if_not_locked c = (Ok (), logged (access_warnings c) c).
Proof.
  unfold _warn_if_not_locked, mbind, M_bind. rewrite is_locked_eq.
  unfold gets, access_warnings; simpl.
  destruct (negb (locked_now c) && warn_lock (self c)); [reflexivity |].
  by rewrite logged_nil.
Qed.

(** *** The scope protocol, method by method *)

Ltac run_method :=
  unfold mbind, M_bind, mret, M_ret, gets, emit, warn, set_lock_keeper,
    set_store, set_is_modified, raise, block, py_assert, call_backend,
    logged, updated, with_lock_keeper, with_backend, entry_events in *;
  simpl in *.

Lemma aenter_acquire_eq (me : nat) (c : Cfg) :
  aenter_acquire me c =
  let kg := acquire me (sid (self c)) (lock_keeper (world c)) in
  (Ok kg.2, with_lock_keeper kg.1 (logged (entry_events c) c)).
Proof.
  destruct c as [[p id wl d] [k b t]]. unfold aenter_acquire. run_method.
  destruct d; simpl; destruct (acquire me id k); simpl;
    by rewrite <- ?app_assoc.
Qed.

Lemma aenter_load_eq (c : Cfg) :
  aenter_load _fetch_sess c =
  if locked_now c then
    let id := sid (self c) in
    let c1 := logged [FetchCalled id] c in
    match _fetch_sess id (backend (world c)) with
    | (inr r, b') =>
        (Ok (), updated (or_empty r) (is_modified (self c))
                  (with_backend b' c1))
    | (inl e, b') => (Raise e, with_backend b' c1)
    end
  else (Raise AssertionError, c).
Proof.
  unfold aenter_load, mbind at 1, M_bind at 1. rewrite is_locked_eq.
  destruct c as [[p id wl d] [k b t]].
  destruct (locked_now _); run_method; [| reflexivity].
  destruct (_fetch_sess id b) as [[e | r] b']; reflexivity.
Qed.

Lemma aexit_flush_eq (c : Cfg) :
  aexit_flush _post_sess c =
  if is_modified (self c) then
    let id := sid (self c) in
    let c1 := logged [PostCalled id (store (self c))] c in
    match _post_sess id (store (self c)) (backend (world c)) with
    | (inr _, b') =>
        (Ok (), updated (store (self c)) false (with_backend b' c1))
    | (inl e, b') => (Raise e, with_backend b' c1)
    end
  else (Ok (), c).
Proof.
  destruct c as [[p id wl d] [k b t]]. unfold aexit_flush. run_method.
  destruct d; simpl; [| reflexivity].
  destruct (_post_sess id p b) as [[e | []] b']; reflexivity.
Qed.

Lemma release_lookup (id : string) (k : LockKeeper) :
  acquired_locks (release id k) !! id = None.
Proof.
  unfold release. destruct (acquired_locks k !! id) eqn:E; simpl; [| done].
  apply lookup_delete_eq.
Qed.

Lemma aexit_release_eq (c : Cfg) :
  aexit_release c =
  (Ok (),
   with_lock_keeper (release (sid (self c)) (lock_keeper (world c)))
     (logged [ReleaseCalled (sid (self c))] c)).
Proof.
  unfold aexit_release.
  unfold mbind at 1, M_bind at 1, gets at 1.
  unfold mbind at 1, M_bind at 1, emit at 1.
  unfold mbind at 1, M_bind at 1, gets at 1.
  unfold mbind at 1, M_bind at 1, set_lock_keeper at 1.
  unfold mbind at 1, M_bind at 1. rewrite is_locked_eq.
  destruct c as [[p id wl d] [k b t]]. unfold locked_now; simpl.
  rewrite release_lookup. reflexivity.
Qed.

(** *** The mapping interface *)

Lemma getitem_eq (key : string) (c : Cfg) :
  __getitem__ key c =
  (match store (self c) !! lower key with
   | Some v => Ok v
   | None => Raise (KeyError (lower key))
   end, logged (access_warnings c) c).
Proof.
  unfold __getitem__, mbind, M_bind. rewrite warn_if_not_locked_eq.
  unfold gets; simpl. destruct (store (self c) !! lower key); reflexivity.
Qed.

Lemma setitem_eq (key : string) (v : value) (c : Cfg) :
  __setitem__ key v c =
  (Ok (), updated (<[lower key := v]> (store (self c))) true
            (logged (access_warnings c) c)).
Proof.
  unfold __setitem__, mbind, M_bind. rewrite warn_if_not_locked_eq.
  reflexivity.
Qed.

Lemma delitem_eq (key : string) (c : Cfg) :
  __delitem__ key c =
  match store (self c) !! lower key with
  | Some _ =>
      (Ok (), updated (delete (lower key) (store (self c))) true
                (logged (access_warnings c) c))
  | None =>
      (Raise (KeyError (lower key)),
       updated (store (self c)) true (logged (access_warnings c) c))
  end.
Proof.
  unfold __delitem__, mbind, M_bind. rewrite warn_if_not_locked_eq.
  unfold gets; simpl. destruct (store (self c) !! lower key); reflexivity.
Qed.

(** C7. Keys are case-insensitive: after [session[k] = v], reading the
    item under any case variant of [k] returns [v], and deleting it under
    any case variant removes it, so that reading it under any case variant
    raises [KeyError] afterwards. *)
Theorem keys_are_case_insensitive (c : Cfg) (k k' : string) (v : value) :
  case_variant k k' ->
  let c1 := (__setitem__ k v c).2 in
  (__setitem__ k v c).1 = Ok () /\
  (__getitem__ k' c1).1 = Ok v /\
  (__delitem__ k' c1).1 = Ok () /\
  forall k'', case_variant k k'' ->
    (__getitem__ k'' (__delitem__ k' c1).2).1 = Raise (KeyError (lower k'')).
Proof.
  intros Hk c1. subst c1. rewrite setitem_eq; simpl.
  apply case_variant_lower in Hk.
  split; [reflexivity |].
  rewrite getitem_eq, delitem_eq; simpl.
  rewrite <- Hk, lookup_insert_eq; simpl.
  repeat split.
  intros k'' Hk''. apply case_variant_lower in Hk''.
  rewrite getitem_eq; simpl.
  by rewrite <- Hk'', lookup_delete_eq.
Qed.

(** [len(session)] and [iter(session)] read the store and do not pass
    through [_warn_if_not_locked]. *)
Lemma len_and_iter_are_silent (c : Cfg) :
  __len__ c = (Ok (size (store (self c))), c) /\
  __iter__ c = (Ok (map_to_list (store (self c))).*1, c).
Proof. split; reflexivity. Qed.

(** C8. While nobody holds the lock of the session id and [warn_lock] is
    on, an item read, an item assignment and an item deletion each issue
    the warning [UNLOCKED_WARNING_MSG], once; none of them suspends, and
    each returns or raises, and leaves the payload, the dirty flag, the
    locks and the backend, as the same access does with the warning
    switched off. *)
Theorem unguarded_access_warns (c : Cfg) (key : string) (v : value) :
  (is_locked c).1 = Ok false -> warn_lock (self c) = true ->
  let warned (c' : Cfg) :=
    trace (world c') =
    (trace (world c) ++ [Warned UNLOCKED_WARNING_MSG])%list in
  (warned (__getitem__ key c).2 /\
   (forall l, (__getitem__ key c).1 <> Blocked l) /\
   same_access (__getitem__ key c) (__getitem__ key (silenced c))) /\
  (warned (__setitem__ key v c).2 /\
   (forall l, (__setitem__ key v c).1 <> Blocked l) /\
   same_access (__setitem__ key v c) (__setitem__ key v (silenced c))) /\
  (warned (__delitem__ key c).2 /\
   (forall l, (__delitem__ key c).1 <> Blocked l) /\
   same_access (__delitem__ key c) (__delitem__ key (silenced c))).
Proof.
  rewrite is_locked_eq. intros Hl Hw. cbv zeta.
  assert (Hl' : locked_now c = false) by (simpl in Hl; congruence).
  rewrite !getitem_eq, !setitem_eq, !delitem_eq.
  unfold same_access, access_warnings. rewrite Hl', Hw.
  unfold silenced, locked_now; simpl.
  destruct (store (self c) !! lower key); simpl; repeat split; congruence.
Qed.

Lemma reset_eq (c : Cfg) :
  reset c =
  if decide (store (self c) = ∅) then (Ok (), c)
  else (Ok (), updated ∅ true (logged (access_warnings c) c)).
Proof.
  unfold reset, mbind at 1, M_bind at 1, gets at 1.
  case_decide; [reflexivity |].
  unfold mbind, M_bind. rewrite warn_if_not_locked_eq. reflexivity.
Qed.

Lemma hook_eq (key : string) (c : Cfg) :
  __getattr__ key c =
  if bool_decide (key ∈ ["pop"; "popitem"; "update"; "clear"; "setdefault"])
  then (Ok (DictMethod key),
        updated (store (self c)) true (logged (access_warnings c) c))
  else (Raise (AttributeError key), c).
Proof.
  unfold __getattr__. case_bool_decide; [| reflexivity].
  unfold mbind, M_bind. rewrite warn_if_not_locked_eq. reflexivity.
Qed.

Lemma frame_refl (c : Cfg) : frame c c.
Proof. by repeat split. Qed.

Lemma frame_trans (c1 c2 c3 : Cfg) :
  frame c1 c2 -> frame c2 c3 -> frame c1 c3.
Proof.
  unfold frame. intros (? & ? & ? & ?) (? & ? & ? & ?).
  split_and!; congruence.
Qed.

Lemma frame_updated_logged
    (p : payload) (d : bool) (es : list event) (c : Cfg) :
  frame c (updated p d (logged es c)).
Proof. by repeat split. Qed.

Hint Resolve frame_refl frame_updated_logged : core.

Ltac framed := simpl; split; [by repeat split | discriminate].

(** A mapping operation leaves the locks, the backend and the session id
    alone, and does not suspend. *)
Lemma exec_mapping_frame (me : nat) (o : op) (c : Cfg) :
  mapping_op o = true ->
  frame c (exec _fetch_sess _post_sess me o c).2 /\
  forall l, (exec _fetch_sess _post_sess me o c).1 <> Blocked l.
Proof.
  destruct o as [key | key v | key | | name | |]; try discriminate; intros _;
    unfold exec.
  - unfold mbind, M_bind. rewrite getitem_eq.
    destruct (store (self c) !! lower key); framed.
  - rewrite setitem_eq; framed.
  - rewrite delitem_eq.
    destruct (store (self c) !! lower key); framed.
  - rewrite reset_eq. case_decide; framed.
  - unfold mbind, M_bind, getattr.
    repeat case_bool_decide; try framed.
    rewrite hook_eq. case_bool_decide; framed.
Qed.

Lemma body_of_frame (me : nat) (os : list op) (c : Cfg) :
  forallb mapping_op os = true ->
  frame c (body_of _fetch_sess _post_sess me os c).2 /\
  forall l, (body_of _fetch_sess _post_sess me os c).1 <> Blocked l.
Proof.
  revert c. induction os as [| o os IH]; intros c Hos; simpl.
  - split; [apply frame_refl | discriminate].
  - apply andb_true_iff in Hos as [Ho Hos].
    destruct (exec_mapping_frame me o c Ho) as [Hf Hb].
    unfold mbind, M_bind.
    destruct (exec _ _ me o c) as [[[] | e | l] c1]; simpl in *.
    + destruct (IH c1 Hos) as [Hf' Hb']. split; [| done].
      eapply frame_trans; eauto.
    + split; [done | discriminate].
    + by destruct (Hb l).
Qed.

(** *** Entering and leaving a scope *)

Lemma acquire_free (me : nat) (id : string) (k : LockKeeper) :
  acquired_locks k !! id = None ->
  acquire me id k =
  (mkKeeper (objects k ++ [mkLock true []])
            (<[id := length (objects k)]> (acquired_locks k)),
   Granted).
Proof. intros Hfree. unfold acquire. by rewrite Hfree. Qed.

Lemma or_empty_default (r : option payload) : or_empty r = default ∅ r.
Proof. destruct r as [p |]; simpl; [| done]. by case_decide. Qed.

Lemma acquire_free_lookup (me : nat) (id : string) (k : LockKeeper) :
  acquired_locks k !! id = None ->
  acquired_locks (acquire me id k).1 !! id = Some (length (objects k)).
Proof.
  intros Hfree. rewrite (acquire_free _ _ _ Hfree); simpl.
  apply lookup_insert_eq.
Qed.

Lemma aenter_free_eq (me : nat) (c : Cfg) :
  acquired_locks (lock_keeper (world c)) !! sid (self c) = None ->
  __aenter__ _fetch_sess me c =
  let id := sid (self c) in
  let c0 :=
    with_lock_keeper (acquire me id (lock_keeper (world c))).1
      (logged (entry_events c ++ [FetchCalled id]) c) in
  match _fetch_sess id (backend (world c)) with
  | (inr r, b') =>
      (Ok (), updated (or_empty r) (is_modified (self c))
                (with_backend b' c0))
  | (inl e, b') => (Raise e, with_backend b' c0)
  end.
Proof.
  intros Hfree. unfold __aenter__, mbind, M_bind.
  rewrite aenter_acquire_eq. cbv zeta. rewrite (acquire_free _ _ _ Hfree).
  unfold snd. rewrite aenter_load_eq.
  destruct c as [[p id wl d] [[os al] b t]]; simpl in *.
  unfold locked_now; simpl. rewrite lookup_insert_eq.
  rewrite lookup_app_r, Nat.sub_diag by done. simpl.
  destruct (_fetch_sess id b) as [[e | r] b']; run_method;
    by rewrite <- !app_assoc.
Qed.

Lemma aenter_free_ok (me : nat) (c c1 : Cfg) :
  acquired_locks (lock_keeper (world c)) !! sid (self c) = None ->
  __aenter__ _fetch_sess me c = (Ok (), c1) ->
  acquired_locks (lock_keeper (world c1)) !! sid (self c)
    = Some (length (objects (lock_keeper (world c)))) /\
  sid (self c1) = sid (self c).
Proof.
  intros Hfree. rewrite (aenter_free_eq me c Hfree). cbv zeta.
  pose proof (acquire_free_lookup me _ _ Hfree) as Hk.
  destruct (_fetch_sess _ _) as [[e | r] b']; intros [= <-]; simpl; auto.
Qed.

Lemma aexit_eq (c : Cfg) :
  __aexit__ _post_sess c =
  let id := sid (self c) in
  let k' := release id (lock_keeper (world c)) in
  if is_modified (self c) then
    match _post_sess id (store (self c)) (backend (world c)) with
    | (inr _, b') =>
        (Ok (),
         with_lock_keeper k'
           (logged [PostCalled id (store (self c)); ReleaseCalled id]
              (updated (store (self c)) false (with_backend b' c))))
    | (inl e, b') =>
        (Raise e,
         with_backend b' (logged [PostCalled id (store (self c))] c))
    end
  else (Ok (), with_lock_keeper k' (logged [ReleaseCalled id] c)).
Proof.
  unfold __aexit__, mbind, M_bind. rewrite aexit_flush_eq.
  destruct c as [[p id wl d] [k b t]]; simpl.
  destruct d; [| by rewrite aexit_release_eq].
  destruct (_post_sess id p b) as [[e | []] b']; [reflexivity |].
  rewrite aexit_release_eq. run_method. by rewrite <- app_assoc.
Qed.

(** C4. When the dirty flag is set at the entry of a scope whose lock is
    free and whose fetch returns, [__aenter__] issues the warning
    [UNLOCKED_LOCKED_ACCESS_MIX_MSG], then takes the lock, then fetches,
    and returns with the fetched payload (the empty payload when the
    backend has none) as its store: every item read in the scope sees the
    fetched payload, whatever the store held before. *)
Theorem guarded_entry_discards_unguarded_writes
    (me : nat) (c : Cfg) (r : option payload) (b' : B) :
  is_modified (self c) = true ->
  acquired_locks (lock_keeper (world c)) !! sid (self c) = None ->
  _fetch_sess (sid (self c)) (backend (world c)) = (inr r, b') ->
  exists c',
    __aenter__ _fetch_sess me c = (Ok (), c') /\
    trace (world c') =
      (trace (world c) ++
       [Warned UNLOCKED_LOCKED_ACCESS_MIX_MSG;
        AcquireCalled (sid (self c)); FetchCalled (sid (self c))])%list /\
    store (self c') = default ∅ r /\
    forall key,
      (__getitem__ key c').1 =
      match default ∅ r !! lower key with
      | Some v => Ok v
      | None => Raise (KeyError (lower key))
      end.
Proof.
  intros Hdirty Hfree Hfetch.
  rewrite (aenter_free_eq me c Hfree). cbv zeta. rewrite Hfetch.
  eexists; split; [reflexivity |].
  destruct c as [[p id wl d] [k b t]]; simpl in *. subst d.
  run_method. rewrite or_empty_default.
  repeat split. intros key. by rewrite getitem_eq.
Qed.

(** C5, as the code has it. When the write-back a scope's exit may have
    to make returns,
    [__aexit__] returns; it has called [_post_sess] with the id and the
    store exactly when the dirty flag was set, and then the flag is reset;
    it has called [lock_keeper.release] in either case, after the
    write-back: the locks are untouched while the write-back runs, the id
    has no lock afterwards, and the backend is left as the write-back left
    it. *)
Theorem guarded_exit_writes_back_then_releases (c : Cfg) :
  let id := sid (self c) in
  let posted := _post_sess id (store (self c)) (backend (world c)) in
  (is_modified (self c) = true -> posted.1 = inr ()) ->
  exists c',
    __aexit__ _post_sess c = (Ok (), c') /\
    is_modified (self c') = false /\
    trace (world c') =
      (trace (world c)
       ++ (if is_modified (self c)
           then [PostCalled id (store (self c))] else [])
       ++ [ReleaseCalled id])%list /\
    lock_keeper (world (aexit_flush _post_sess c).2)
      = lock_keeper (world c) /\
    acquired_locks (lock_keeper (world c')) !! id = None /\
    backend (world c') =
      (if is_modified (self c) then posted.2 else backend (world c)).
Proof.
  intros id posted Hpost. subst id posted.
  unfold __aexit__, mbind, M_bind. rewrite aexit_flush_eq.
  destruct c as [[p id wl d] [k b t]]; simpl in *.
  destruct d; cbv zeta.
  - specialize (Hpost eq_refl).
    destruct (_post_sess id p b) as [[e | []] b1]; [discriminate |].
    rewrite aexit_release_eq. eexists; split; [reflexivity |].
    run_method. rewrite release_lookup, <- app_assoc. by repeat split.
  - rewrite aexit_release_eq. eexists; split; [reflexivity |].
    run_method. rewrite release_lookup. by repeat split.
Qed.

(** The errors of a scope, case by case. Take a scope whose lock is free
    at entry and whose body is made of mapping operations. If the fetch of
    the entry raises, the scope raises the same error and the lock of the id stays
    in [acquired_locks]. If the body has ended, the dirty flag is set and
    the write-back of the exit raises, the scope raises the same error
    and the lock stays in [acquired_locks]. If the body raises and the
    write-back, if there is one, returns, the scope raises the error of
    the body after the exit has called [lock_keeper.release] once, and the
    id has no lock any more. *)
Theorem scope_release_on_error (me : nat) (os : list op) (c : Cfg) :
  acquired_locks (lock_keeper (world c)) !! sid (self c) = None ->
  forallb mapping_op os = true ->
  let id := sid (self c) in
  let body := body_of _fetch_sess _post_sess me os in
  let scope := async_with _fetch_sess _post_sess me body c in
  let held := acquired_locks (lock_keeper (world scope.2)) !! id in
  (forall e, (_fetch_sess id (backend (world c))).1 = inl e ->
     scope.1 = Raise e /\ is_Some held) /\
  (forall c1, __aenter__ _fetch_sess me c = (Ok (), c1) ->
     let c2 := (body c1).2 in
     let posted := _post_sess id (store (self c2)) (backend (world c2)) in
     (forall e, is_modified (self c2) = true -> posted.1 = inl e ->
        scope.1 = Raise e /\ is_Some held) /\
     (forall e, (body c1).1 = Raise e ->
        (is_modified (self c2) = true -> posted.1 = inr ()) ->
        scope.1 = Raise e /\ held = None /\
        trace (world scope.2) =
          (trace (world c2)
           ++ (if is_modified (self c2)
               then [PostCalled id (store (self c2))] else [])
           ++ [ReleaseCalled id])%list)).
Proof.
  intros Hfree Hos id body scope held.
  pose proof (acquire_free_lookup me _ _ Hfree) as Hheld0. fold id in Hheld0.
  split.
  - intros e He. subst held scope. unfold async_with.
    rewrite (aenter_free_eq me c Hfree). cbv zeta. fold id.
    destruct (_fetch_sess id (backend (world c))) as [r b'].
    simpl in He; subst r. simpl. rewrite Hheld0.
    split; [reflexivity | by eexists].
  - intros c1 Hc1.
    destruct (aenter_free_ok me c c1 Hfree Hc1) as [Hk1 Hid1].
    fold id in Hk1, Hid1.
    destruct (body_of_frame me os c1 Hos) as [(Hk2 & _ & Hid2 & _) Hnb].
    fold body in Hk2, Hid2, Hnb.
    cbv zeta. subst held scope. unfold async_with. rewrite Hc1.
    destruct (body c1) as [rb c2] eqn:Hbody. unfold fst, snd in *.
    assert (Hid : sid (self c2) = id) by congruence.
    assert (Hk : acquired_locks (lock_keeper (world c2)) !! id
                 = Some (length (objects (lock_keeper (world c)))))
      by congruence.
    clear Hk1 Hk2 Hid1 Hid2 Hbody Hc1.
    pose proof (aexit_eq c2) as Hexit. cbv zeta in Hexit. rewrite Hid in Hexit.
    split.
    + intros e Hd He. rewrite Hd in Hexit.
      destruct (_post_sess id (store (self c2)) (backend (world c2)))
        as [r' b'']. subst r'.
      destruct rb as [[] | e' | l]; [| | by destruct (Hnb l)];
        rewrite Hexit; simpl; rewrite Hk; (split; [reflexivity | by eexists]).
    + intros e -> Hpost. rewrite Hexit.
      destruct (is_modified (self c2)) eqn:Hd.
      * specialize (Hpost eq_refl).
        destruct (_post_sess id (store (self c2)) (backend (world c2)))
          as [r' b'']. subst r'. simpl.
        rewrite release_lookup. by repeat split.
      * simpl. rewrite release_lookup. by repeat split.
Qed.

Lemma held_lock_blocks (me me' : nat) (k : LockKeeper) (c2 : Cfg) :
  acquired_locks k !! sid (self c2) = None ->
  lock_keeper (world c2) = (acquire me (sid (self c2)) k).1 ->
  (__aenter__ _fetch_sess me' c2).1 = Blocked (length (objects k)).
Proof.
  intros Hfree Hk. rewrite (acquire_free _ _ _ Hfree) in Hk.
  unfold __aenter__, mbind, M_bind. rewrite aenter_acquire_eq. cbv zeta.
  rewrite Hk. unfold acquire; simpl.
  rewrite lookup_insert_eq, lookup_app_r, Nat.sub_diag by done. reflexivity.
Qed.

(** The lock a scope leaves behind when its fetch or its write-back raises
    stops every later entry for the id: whoever calls [__aenter__] for the
    id in the world the scope has left, through whatever object, is
    suspended on the lock object of that scope. *)
Lemma leaked_lock_blocks_next_entry
    (me me' : nat) (os : list op) (c c2 : Cfg) :
  acquired_locks (lock_keeper (world c)) !! sid (self c) = None ->
  forallb mapping_op os = true ->
  let id := sid (self c) in
  let body := body_of _fetch_sess _post_sess me os in
  let scope := async_with _fetch_sess _post_sess me body c in
  world c2 = world scope.2 -> sid (self c2) = id ->
  (exists e, (_fetch_sess id (backend (world c))).1 = inl e) \/
  (exists c1 e,
     __aenter__ _fetch_sess me c = (Ok (), c1) /\
     is_modified (self (body c1).2) = true /\
     (_post_sess id (store (self (body c1).2))
        (backend (world (body c1).2))).1 = inl e) ->
  (__aenter__ _fetch_sess me' c2).1
    = Blocked (length (objects (lock_keeper (world c)))).
Proof.
  intros Hfree Hos id body scope Hw Hid Hwhy.
  apply (held_lock_blocks me); rewrite Hid; [exact Hfree |].
  rewrite Hw. subst scope. unfold async_with.
  pose proof (aenter_free_eq me c Hfree) as Henter. cbv zeta in Henter.
  fold id in Henter.
  destruct Hwhy as [[e He] | (c1 & e & Hc1 & Hd & He)].
  - rewrite Henter.
    destruct (_fetch_sess id (backend (world c))) as [r b'].
    simpl in He; subst r. reflexivity.
  - rewrite Hc1. rewrite Hc1 in Henter.
    assert (Hk1 : lock_keeper (world c1)
                  = (acquire me id (lock_keeper (world c))).1
                  /\ sid (self c1) = id).
    { destruct (_fetch_sess id (backend (world c))) as [[e0 | r] b'];
        inversion Henter; by subst. }
    destruct Hk1 as [Hk1 Hid1].
    destruct (body_of_frame me os c1 Hos) as [(Hk2 & _ & Hid2 & _) Hnb].
    fold body in Hk2, Hid2, Hnb, Hd, He.
    destruct (body c1) as [rb c3]. unfold fst, snd in *.
    pose proof (aexit_eq c3) as Hexit. cbv zeta in Hexit.
    rewrite Hd, Hid2, Hid1 in Hexit.
    destruct (_post_sess id (store (self c3)) (backend (world c3)))
      as [r' b'']. subst r'.
    destruct rb as [[] | e' | l]; [| | by destruct (Hnb l)];
      rewrite Hexit; simpl; congruence.
Qed.

(** *** Attribute lookup *)

Lemma mutators_are_inherited (name : string) :
  name ∈ ["pop"; "popitem"; "update"; "clear"; "setdefault"] ->
  bool_decide (name ∈ instance_attributes) = false /\
  bool_decide (name ∈ class_attributes) = true.
Proof.
  intros H. repeat (apply elem_of_cons in H as [-> | H]);
    [by vm_compute .. | by apply elem_of_nil in H].
Qed.

Lemma getattr_inherited (name : string) (c : Cfg) :
  name ∈ ["pop"; "popitem"; "update"; "clear"; "setdefault"] ->
  getattr name c = (Ok (BoundMethod name), c).
Proof.
  intros H. destruct (mutators_are_inherited name H) as [Hi Hc].
  unfold getattr. by rewrite Hi, Hc.
Qed.


(** C10, as the code has it. Each of [pop], [popitem], [update], [clear]
    and [setdefault] is a method [SessionDict] inherits from
    [MutableMapping], so looking it up on a session dictionary finds the
    inherited method and changes nothing: the dirty flag is as before, no
    warning is issued, [__getattr__] is not run. Called by hand with one
    of these names, [__getattr__] does set the dirty flag. *)
Theorem lookup_of_mutator_keeps_flag :
  Forall (fun name => forall c : Cfg,
            getattr name c = (Ok (BoundMethod name), c) /\
            is_modified (self (__getattr__ name c).2) = true)
    ["pop"; "popitem"; "update"; "clear"; "setdefault"].
Proof.
  apply Forall_forall. intros name Hname c.
  split; [by apply getattr_inherited |].
  rewrite hook_eq. by rewrite bool_decide_eq_true_2.
Qed.

(** *** The dirty flag along a run *)

(** What one operation does to the dirty flag. *)
Lemma exec_dirty (me : nat) (o : op) (c : Cfg) :
  let c' := (exec _fetch_sess _post_sess me o c).2 in
  if writes_back _post_sess o c then is_modified (self c') = false
  else is_modified (self c') = true ->
       is_modified (self c) = true \/ marks o c = true.
Proof.
  destruct c as [[p id wl d] [k b t]].
  destruct o as [key | key v | key | | name | |]; cbv zeta;
    unfold exec, writes_back, marks.
  - unfold mbind, M_bind. rewrite getitem_eq; simpl.
    destruct (p !! lower key); simpl; auto.
  - auto.
  - auto.
  - rewrite reset_eq; simpl. case_decide; simpl; [auto |].
    intros _. right. by apply bool_decide_eq_true_2.
  - unfold mbind, M_bind, getattr.
    repeat case_bool_decide; simpl; auto.
    rewrite hook_eq. case_bool_decide as Hm; simpl; auto.
    destruct (mutators_are_inherited name Hm) as [_ Hc].
    apply bool_decide_eq_true_1 in Hc. contradiction.
  - unfold __aenter__, mbind, M_bind. rewrite aenter_acquire_eq. cbv zeta.
    destruct (acquire me _ _) as [k' [| l]]; unfold fst, snd; [| simpl; auto].
    rewrite aenter_load_eq.
    destruct (locked_now _); [| simpl; auto]. cbv zeta.
    destruct (_fetch_sess _ _) as [[e | r] b']; simpl; auto.
  - rewrite aexit_eq, aexit_flush_eq. simpl.
    destruct d; simpl; auto.
    destruct (_post_sess id p b) as [[e | []] b']; simpl; auto.
Qed.

Lemma since_dirty (me : nat) (os : list op) (c : Cfg) (seen : bool) :
  (is_modified (self c) = true -> seen = true) ->
  let run := since _fetch_sess _post_sess marks (writes_back _post_sess)
               me os c seen in
  is_modified (self run.1) = true -> run.2 = true.
Proof.
  revert c seen. induction os as [| o os IH]; intros c seen Hc; simpl; auto.
  pose proof (exec_dirty me o c) as Ho. cbv zeta in Ho.
  destruct (exec _ _ me o c) as [r c'] eqn:Hexec. simpl in Ho.
  set (seen' := if writes_back _post_sess o c then false
                else seen || marks o c).
  assert (Hc' : is_modified (self c') = true -> seen' = true).
  { subst seen'. destruct (writes_back _post_sess o c); [congruence |].
    intros Hd. destruct (Ho Hd) as [H | H].
    - by rewrite (Hc H).
    - rewrite H. apply orb_true_r. }
  destruct r; simpl; auto.
Qed.

(** C6, as the code has it. Along every run of public operations from a
    session dictionary whose dirty flag is not set, whenever the flag is
    set, an item assignment, an item deletion (also one that raised for a
    missing key) or a reset of a payload that was not empty has run since
    the last write-back that returned. *)
Theorem dirty_after_mark (me : nat) (os : list op) (c : Cfg) :
  is_modified (self c) = false ->
  dirty_implies _fetch_sess _post_sess marks (writes_back _post_sess)
    me os c.
Proof.
  intros Hclean. unfold dirty_implies.
  apply since_dirty. congruence.
Qed.

(** *** Tasks that share the lock keeper *)

Lemma Lock_acquire_taken (me : nat) (lk : Lock) :
  lk_locked lk = true ->
  Lock_acquire me lk = (mkLock true (lk_waiters lk ++ [(me, false)]), false).
Proof. intros H. unfold Lock_acquire. rewrite H. reflexivity. Qed.

Lemma acquire_inv (me : nat) (id : string) (k : LockKeeper) :
  keeper_inv k -> keeper_inv (acquire me id k).1.
Proof.
  intros Hk. unfold acquire.
  destruct (acquired_locks k !! id) as [l |] eqn:Hid.
  - destruct (objects k !! l) as [lk |] eqn:Hl; [| done].
    destruct (Hk l lk Hl) as [Hlocked Hw].
    rewrite (Lock_acquire_taken _ _ Hlocked); simpl.
    intros l' lk' Hl'; simpl in Hl'.
    destruct (decide (l = l')) as [<- |].
    + rewrite list_lookup_insert_eq in Hl' by (by eapply lookup_lt_Some).
      inversion Hl'; subst lk'; simpl. split; [done |].
      intros w [Hin | Hin]%elem_of_app; [by apply Hw |].
      apply list_elem_of_singleton in Hin. by subst w.
    + rewrite list_lookup_insert_ne in Hl' by done. by apply (Hk l').
  - simpl. intros l' lk' Hl'; simpl in Hl'.
    apply lookup_app_Some in Hl' as [Hl' | [_ Hl']]; [by apply (Hk l') |].
    destruct (l' - length (objects k)); simpl in Hl'; [| done].
    inversion Hl'; subst lk'; simpl. split; [done |].
    intros w Hin. by apply elem_of_nil in Hin.
Qed.

Lemma acquire_result (me : nat) (id : string) (k : LockKeeper) :
  keeper_inv k ->
  match (acquire me id k).2 with
  | Granted =>
      acquired_locks k !! id = None /\
      acquired_locks (acquire me id k).1
        = <[id := length (objects k)]> (acquired_locks k)
  | Suspended _ => acquired_locks (acquire me id k).1 = acquired_locks k
  end.
Proof.
  intros Hk. unfold acquire.
  destruct (acquired_locks k !! id) as [l |] eqn:Hid; [| by simpl].
  destruct (objects k !! l) as [lk |] eqn:Hl; [| done].
  destruct (Hk l lk Hl) as [Hlocked _].
  by rewrite (Lock_acquire_taken _ _ Hlocked).
Qed.

Lemma resume_never (me : nat) (lk : Lock) :
  (forall w, w ∈ lk_waiters lk -> w.2 = false) -> Lock_resume me lk = None.
Proof.
  intros Hw. unfold Lock_resume. case_bool_decide as Hin; [| done].
  by apply Hw in Hin.
Qed.

Lemma release_inv (id : string) (k : LockKeeper) :
  keeper_inv k -> keeper_inv (release id k).
Proof. intros Hk l lk. rewrite release_objects. apply Hk. Qed.

Lemma release_other (id id' : string) (k : LockKeeper) :
  id' <> id ->
  acquired_locks (release id k) !! id' = acquired_locks k !! id'.
Proof.
  intros Hne. unfold release.
  destruct (acquired_locks k !! id); simpl; [| done].
  by rewrite lookup_delete_ne.
Qed.

Lemma tasks_inv_update (k k' : LockKeeper) (ts : list Task) (i : nat)
    (t t' : Task) :
  tasks_inv k ts -> ts !! i = Some t ->
  (forall j tj, j <> i -> ts !! j = Some tj -> critical (at_pc tj) = true ->
     is_Some (acquired_locks k' !! sid (view tj))) ->
  (critical (at_pc t') = true ->
     is_Some (acquired_locks k' !! sid (view t')) /\
     forall j tj, j <> i -> ts !! j = Some tj ->
       critical (at_pc tj) = true -> sid (view tj) <> sid (view t')) ->
  tasks_inv k' (<[i := t']> ts).
Proof.
  intros [Hreg Hex] Hi Hothers Hme.
  assert (Hlt : i < length ts) by (by eapply lookup_lt_Some).
  split.
  - intros j tj Hj Hc. destruct (decide (j = i)) as [-> |].
    + rewrite list_lookup_insert_eq in Hj by done.
      inversion Hj; subst tj. by apply Hme.
    + rewrite list_lookup_insert_ne in Hj by done. by eapply Hothers.
  - intros j1 j2 t1 t2 H1 H2 Hc1 Hc2 Hsid.
    destruct (decide (j1 = i)) as [-> |], (decide (j2 = i)) as [-> |];
      [done | | |].
    + rewrite list_lookup_insert_eq in H1 by done.
      rewrite list_lookup_insert_ne in H2 by done.
      inversion H1; subst t1.
      destruct (Hme Hc1) as [_ Hne]. by destruct (Hne j2 t2).
    + rewrite list_lookup_insert_ne in H1 by done.
      rewrite list_lookup_insert_eq in H2 by done.
      inversion H2; subst t2.
      destruct (Hme Hc2) as [_ Hne]. by destruct (Hne j1 t1).
    + rewrite list_lookup_insert_ne in H1, H2 by done.
      by eapply Hex.
Qed.

(** A task in its scope moves on: the locks and its id stay. *)
Lemma tasks_inv_inside (k : LockKeeper) (ts : list Task) (i : nat)
    (t t' : Task) :
  tasks_inv k ts -> ts !! i = Some t -> critical (at_pc t) = true ->
  sid (view t') = sid (view t) ->
  tasks_inv k (<[i := t']> ts).
Proof.
  intros Hinv Hi Hc Hsid. pose proof Hinv as [Hreg Hex].
  eapply tasks_inv_update; eauto.
  intros _. rewrite Hsid. split; [by eapply Hreg |].
  intros j tj Hne Hj Hcj Heq. apply Hne. by eapply Hex.
Qed.

Lemma aenter_load_keeps (c : Cfg) :
  lock_keeper (world (aenter_load _fetch_sess c).2) = lock_keeper (world c) /\
  sid (self (aenter_load _fetch_sess c).2) = sid (self c).
Proof.
  rewrite aenter_load_eq. destruct (locked_now c); [| done]. cbv zeta.
  by destruct (_fetch_sess _ _) as [[e | r] b'].
Qed.

Lemma aexit_flush_keeps (c : Cfg) :
  lock_keeper (world (aexit_flush _post_sess c).2) = lock_keeper (world c) /\
  sid (self (aexit_flush _post_sess c).2) = sid (self c).
Proof.
  rewrite aexit_flush_eq. destruct (is_modified (self c)); [| done].
  cbv zeta. by destruct (_post_sess _ _ _) as [[e | []] b'].
Qed.

Lemma initial_inv (σ : System) : initial σ -> lock_inv σ.
Proof.
  intros [Hk Hts]. unfold lock_inv. rewrite Hk. split.
  - intros l lk Hl. simpl in Hl. by destruct l.
  - assert (Hidle : forall i t, tasks σ !! i = Some t ->
                      critical (at_pc t) = false).
    { intros i t Hi. eapply Forall_lookup_1 in Hts; eauto. by rewrite Hts. }
    split.
    + intros i t Hi Hc. by rewrite (Hidle i t Hi) in Hc.
    + intros i j ti tj Hi _ Hc. by rewrite (Hidle i ti Hi) in Hc.
Qed.

Lemma step_inv (σ σ' : System) :
  lock_inv σ -> step _fetch_sess _post_sess σ σ' -> lock_inv σ'.
Proof.
  intros [Hk Hts] Hstep. pose proof Hts as [Hreg Hex].
  destruct Hstep as
    [σ i t g c' Hi Hpc Hrun | σ i t l lk lk' Hi Hpc Hl Hres
    | σ i t r c' Hi Hpc Hrun | σ i t o r c' Hi Hpc Ho Hrun
    | σ i t r c' Hi Hpc Hrun | σ i t r c' Hi Hpc Hrun];
    unfold lock_inv; simpl.
  - rewrite aenter_acquire_eq in Hrun. cbv zeta in Hrun. simpl in Hrun.
    set (id := sid (view t)) in *. set (k := lock_keeper (shared σ)) in *.
    pose proof (acquire_inv i id k Hk) as Hk'.
    pose proof (acquire_result i id k Hk) as Hres.
    destruct (acquire i id k) as [k' g']. simpl in Hrun, Hk', Hres.
    inversion Hrun; subst g' c'; clear Hrun. simpl.
    split; [done |].
    eapply tasks_inv_update; eauto; simpl.
    + intros j tj Hne Hj Hc. destruct g.
      * destruct Hres as [_ ->]. apply lookup_insert_is_Some'. right.
        by eapply Hreg.
      * rewrite Hres. by eapply Hreg.
    + destruct g; simpl; [| discriminate]. intros _.
      destruct Hres as [Hfree ->]. split.
      * fold id. rewrite lookup_insert_eq. by eexists.
      * intros j tj Hne Hj Hc Heq.
        destruct (Hreg j tj Hj Hc) as [l Hl]. fold id in Heq. congruence.
  - destruct (Hk l lk Hl) as [_ Hw].
    rewrite (resume_never i lk Hw) in Hres. discriminate.
  - destruct (aenter_load_keeps (mkCfg (view t) (shared σ))) as [Hk' Hid].
    rewrite Hrun in Hk', Hid; simpl in Hk', Hid. rewrite Hk'.
    split; [done |].
    eapply tasks_inv_inside; eauto. by rewrite Hpc.
  - destruct (exec_mapping_frame i o (mkCfg (view t) (shared σ)) Ho)
      as [(Hk' & _ & Hid & _) _].
    rewrite Hrun in Hk', Hid; simpl in Hk', Hid. rewrite Hk'.
    split; [done |].
    eapply tasks_inv_inside; eauto. by rewrite Hpc.
  - destruct (aexit_flush_keeps (mkCfg (view t) (shared σ))) as [Hk' Hid].
    rewrite Hrun in Hk', Hid; simpl in Hk', Hid. rewrite Hk'.
    split; [done |].
    eapply tasks_inv_inside; eauto. by rewrite Hpc.
  - rewrite aexit_release_eq in Hrun. inversion Hrun; subst r c'; simpl.
    split; [by apply release_inv |].
    eapply tasks_inv_update; eauto; simpl; [| discriminate].
    intros j tj Hne Hj Hc. rewrite release_other; [by eapply Hreg |].
    intros Heq. apply Hne. eapply Hex; eauto. by rewrite Hpc.
Qed.

Lemma reachable_inv (σ : System) :
  reachable _fetch_sess _post_sess σ -> lock_inv σ.
Proof.
  intros (σ0 & Hinit & Hrun). apply initial_inv in Hinit.
  induction Hrun as [| σ1 σ2 σ3 Hstep _ IH]; [done |].
  apply IH. by eapply step_inv.
Qed.

Lemma advance_step (i : nat) (σ σ' : System) :
  advance _fetch_sess _post_sess i σ = Some σ' ->
  step _fetch_sess _post_sess σ σ'.
Proof.
  unfold advance. destruct (tasks σ !! i) as [t |] eqn:Hi; [| done].
  destruct (at_pc t) as [| l | | | | |] eqn:Hpc; try done.
  - destruct (aenter_acquire i _) as [[g | e | l] c'] eqn:Hrun; try done.
    intros [= <-]. by eapply step_acquire.
  - destruct (objects _ !! l) as [lk |] eqn:Hl; [| done].
    destruct (Lock_resume i lk) as [lk' |] eqn:Hres; [| done].
    intros [= <-]. by eapply step_resume.
  - destruct (aenter_load _ _) as [r c'] eqn:Hrun.
    intros [= <-]. by eapply step_load.
  - destruct (aexit_flush _ _) as [r c'] eqn:Hrun.
    intros [= <-]. by eapply step_flush.
  - destruct (aexit_release _) as [r c'] eqn:Hrun.
    intros [= <-]. by eapply step_release.
Qed.

Lemma schedule_steps (order : list nat) (σ σ' : System) :
  schedule _fetch_sess _post_sess order σ = Some σ' ->
  rtc (step _fetch_sess _post_sess) σ σ'.
Proof.
  revert σ. induction order as [| i order IH]; intros σ; simpl.
  - intros [= <-]. apply rtc_refl.
  - destruct (advance _ _ i σ) as [σ1 |] eqn:Hadv; [| done].
    intros Hrest. eapply rtc_l; [by eapply advance_step | by apply IH].
Qed.

Lemma step_keeps_waiting (σ σ' : System) (i : nat) (t : Task) (l : nat) :
  lock_inv σ -> step _fetch_sess _post_sess σ σ' ->
  tasks σ !! i = Some t -> at_pc t = Waiting l ->
  tasks σ' !! i = Some t.
Proof.
  intros [Hk _] Hstep Hi Hpc.
  destruct Hstep as
    [σ j t' g c' Hj Hpc' Hrun | σ j t' l' lk lk' Hj Hpc' Hl Hres
    | σ j t' r c' Hj Hpc' Hrun | σ j t' o r c' Hj Hpc' Ho Hrun
    | σ j t' r c' Hj Hpc' Hrun | σ j t' r c' Hj Hpc' Hrun]; simpl;
    (destruct (decide (j = i)) as [-> |];
     [| by rewrite list_lookup_insert_ne]);
    try congruence.
  destruct (Hk l' lk Hl) as [_ Hw].
  rewrite (resume_never i lk Hw) in Hres. discriminate.
Qed.

(** X15. A task that has been suspended in [lock_keeper.acquire] stays
    suspended in every continuation of the system, whatever the other
    tasks do, also when the holder of the lock has left its scope: nothing
    resolves its future. *)
Lemma waiter_never_resumes (σ σ' : System) (i : nat) (t : Task) (l : nat) :
  reachable _fetch_sess _post_sess σ ->
  tasks σ !! i = Some t -> at_pc t = Waiting l ->
  rtc (step _fetch_sess _post_sess) σ σ' ->
  tasks σ' !! i = Some t.
Proof.
  intros Hreach Hi Hpc Hrun. apply reachable_inv in Hreach.
  induction Hrun as [| σ1 σ2 σ3 Hstep _ IH]; [done |].
  apply IH; [by eapply step_inv | by eapply step_keeps_waiting].
Qed.

(** C1. In every system that tasks running guarded scopes can reach from a
    start without locks, whatever the order in which they run from one
    suspension point to the next, two tasks that are both between the
    grant of the lock and its release, for the same session id, are one
    task. *)
Theorem mutual_exclusion (σ : System) :
  reachable _fetch_sess _post_sess σ ->
  forall i j ti tj,
    tasks σ !! i = Some ti -> tasks σ !! j = Some tj ->
    critical (at_pc ti) = true -> critical (at_pc tj) = true ->
    sid (view ti) = sid (view tj) ->
    i = j.
Proof.
  intros Hreach. destruct (reachable_inv σ Hreach) as [_ [_ Hex]].
  exact Hex.
Qed.

(** *** More on the mapping interface *)

(** X1. [reset] returns and leaves an empty store. On a store that is
    empty already it changes nothing: the dirty flag is not set and no
    warning is issued; otherwise it sets the dirty flag. Resetting a second
    time changes nothing. *)
Theorem reset_empties (c : Cfg) :
  (reset c).1 = Ok () /\
  store (self (reset c).2) = ∅ /\
  is_modified (self (reset c).2)
    = is_modified (self c) || bool_decide (store (self c) ≠ ∅) /\
  (store (self c) = ∅ -> (reset c).2 = c) /\
  reset (reset c).2 = (Ok (), (reset c).2).
Proof.
  rewrite (reset_eq c). case_decide as He; simpl.
  - rewrite bool_decide_eq_false_2 by (by intros []).
    rewrite orb_false_r, reset_eq, decide_True by done. by repeat split.
  - rewrite bool_decide_eq_true_2, orb_true_r by done.
    rewrite reset_eq. simpl. rewrite decide_True by done. by repeat split.
Qed.

(** X2. Deleting an item that is not there raises [KeyError] with the
    lower-cased key and leaves the store as it is, but the dirty flag is
    set all the same. *)
Theorem delitem_missing_key (key : string) (c : Cfg) :
  store (self c) !! lower key = None ->
  (__delitem__ key c).1 = Raise (KeyError (lower key)) /\
  store (self (__delitem__ key c).2) = store (self c) /\
  is_modified (self (__delitem__ key c).2) = true.
Proof. intros Hmiss. rewrite delitem_eq, Hmiss. by repeat split. Qed.

(** X3. An item assignment and an item deletion leave the items under
    every other key (up to case) as they are. *)
Theorem other_items_untouched (key key' : string) (v : value) (c : Cfg) :
  lower key' <> lower key ->
  (__getitem__ key' (__setitem__ key v c).2).1 = (__getitem__ key' c).1 /\
  (__getitem__ key' (__delitem__ key c).2).1 = (__getitem__ key' c).1.
Proof.
  intros Hne. rewrite !getitem_eq, setitem_eq, delitem_eq. simpl. split.
  - by rewrite lookup_insert_ne.
  - destruct (store (self c) !! lower key); simpl; [| done].
    by rewrite lookup_delete_ne.
Qed.

(** X4. Assigning an item under a key that is not in the store and then
    deleting it, under the same key or a case variant of it, gives the
    store back as it was. *)
Theorem setitem_then_delitem (key key' : string) (v : value) (c : Cfg) :
  case_variant key key' ->
  store (self c) !! lower key = None ->
  (__delitem__ key' (__setitem__ key v c).2).1 = Ok () /\
  store (self (__delitem__ key' (__setitem__ key v c).2).2) = store (self c).
Proof.
  intros Hk%case_variant_lower Hmiss.
  rewrite delitem_eq, setitem_eq. simpl.
  rewrite <- Hk, lookup_insert_eq. simpl.
  by rewrite delete_insert_id.
Qed.

(** X5. [len(session)] after an item assignment is one more than before
    when the lower-cased key was not in the store and the same when it
    was; after an item deletion that returns it is one less. *)
Theorem len_follows_items (key : string) (v : value) (c : Cfg) :
  (__len__ (__setitem__ key v c).2).1
    = Ok (match store (self c) !! lower key with
          | Some _ => size (store (self c))
          | None => S (size (store (self c)))
          end) /\
  ((__delitem__ key c).1 = Ok () ->
   (__len__ (__delitem__ key c).2).1 = Ok (pred (size (store (self c))))).
Proof.
  rewrite setitem_eq, delitem_eq. unfold __len__; simpl.
  unfold mbind, M_bind, gets; simpl. split.
  - rewrite map_size_insert. by destruct (store (self c) !! lower key).
  - destruct (store (self c) !! lower key) as [w |] eqn:Hk; [| done].
    intros _. simpl. rewrite map_size_delete, Hk. done.
Qed.

(** X6. [iter(session)] lists each key of the store once, as many keys as
    [len(session)] says, and the lower-cased key of an item that has just
    been assigned is among them. *)
Theorem iter_lists_the_keys (c : Cfg) :
  exists ks,
    __iter__ c = (Ok ks, c) /\
    NoDup ks /\
    (__len__ c).1 = Ok (length ks) /\
    (forall k, k ∈ ks <-> is_Some (store (self c) !! k)) /\
    forall key v, exists ks',
      (__iter__ (__setitem__ key v c).2).1 = Ok ks' /\ lower key ∈ ks'.
Proof.
  assert (Hkeys : forall (m : payload) k,
            k ∈ (map_to_list m).*1 <-> is_Some (m !! k)).
  { intros m k. rewrite list_elem_of_fmap. split.
    - intros [[k' w] [-> Hin]]. apply elem_of_map_to_list in Hin. by eexists.
    - intros [w Hw]. exists (k, w). split; [done |].
      by apply elem_of_map_to_list. }
  eexists. split; [reflexivity |].
  split; [apply NoDup_fst_map_to_list |].
  split; [| split].
  - unfold __len__, mbind, M_bind, gets; simpl.
    by rewrite length_fmap, length_map_to_list.
  - apply Hkeys.
  - intros key v. rewrite setitem_eq. eexists. split; [reflexivity |].
    simpl. apply Hkeys. rewrite lookup_insert_eq. by eexists.
Qed.

(** X7. An entry of the store whose key is not lower case (one that came
    with the payload fetched from the backend or given to the constructor)
    is out of reach of the item accesses: no item read returns it, and it
    is still there after any item deletion and after any item assignment,
    while [iter(session)] lists it. *)
Theorem mixed_case_entry_is_out_of_reach
    (k key : string) (v w : value) (c : Cfg) :
  lower k <> k ->
  let c' := updated (<[k := v]> (store (self c))) (is_modified (self c)) c in
  (__getitem__ key c').1 = (__getitem__ key (updated (delete k (store (self c)))
                                               (is_modified (self c)) c)).1 /\
  store (self (__delitem__ key c').2) !! k = Some v /\
  store (self (__setitem__ key w c').2) !! k = Some v /\
  exists ks, (__iter__ c').1 = Ok ks /\ k ∈ ks.
Proof.
  intros Hk c'. subst c'.
  assert (Hne : lower key <> k).
  { intros <-. apply Hk. apply lower_idempotent. }
  rewrite !getitem_eq, delitem_eq, setitem_eq. simpl.
  rewrite lookup_insert_ne, lookup_delete_ne by done.
  split; [done |]. split; [| split].
  - destruct (store (self c) !! lower key); simpl.
    + by rewrite lookup_delete_ne, lookup_insert_eq.
    + by rewrite lookup_insert_eq.
  - by rewrite lookup_insert_ne, lookup_insert_eq.
  - eexists. split; [reflexivity |]. simpl.
    apply list_elem_of_fmap. exists (k, v). split; [done |].
    apply elem_of_map_to_list. by rewrite lookup_insert_eq.
Qed.

(** *** More on scopes *)

Lemma aenter_entered (me : nat) (c : Cfg) (r : option payload) (b' : B) :
  acquired_locks (lock_keeper (world c)) !! sid (self c) = None ->
  _fetch_sess (sid (self c)) (backend (world c)) = (inr r, b') ->
  __aenter__ _fetch_sess me c = (Ok (), entered me r b' c) /\
  locked_now (entered me r b' c) = true.
Proof.
  intros Hfree Hfetch. rewrite (aenter_free_eq me c Hfree). cbv zeta.
  rewrite Hfetch. split; [reflexivity |].
  unfold locked_now, entered; simpl.
  rewrite (acquire_free _ _ _ Hfree); simpl.
  rewrite lookup_insert_eq, lookup_app_r, Nat.sub_diag by done. reflexivity.
Qed.

Lemma locked_now_frame (c c' : Cfg) :
  frame c c' -> locked_now c' = locked_now c.
Proof. intros (Hk & _ & Hid & _). unfold locked_now. by rewrite Hk, Hid. Qed.

Lemma silent_when_locked (c : Cfg) :
  locked_now c = true -> logged (access_warnings c) c = c.
Proof.
  intros Hl. unfold access_warnings. rewrite Hl. apply logged_nil.
Qed.

(** Under the lock, a mapping operation adds nothing to the trace. *)
Lemma exec_mapping_trace (me : nat) (o : op) (c : Cfg) :
  mapping_op o = true -> locked_now c = true ->
  trace (world (exec _fetch_sess _post_sess me o c).2) = trace (world c).
Proof.
  intros Ho Hl. pose proof (silent_when_locked c Hl) as Hs.
  destruct o as [key | key v | key | | name | |]; try discriminate;
    unfold exec.
  - unfold mbind, M_bind. rewrite getitem_eq, Hs.
    by destruct (store (self c) !! lower key).
  - by rewrite setitem_eq, Hs.
  - rewrite delitem_eq, Hs. by destruct (store (self c) !! lower key).
  - rewrite reset_eq, Hs. by case_decide.
  - unfold mbind, M_bind, getattr.
    repeat case_bool_decide; try done.
    rewrite hook_eq, Hs. by case_bool_decide.
Qed.

(** Under the lock, an operation that reads changes nothing at all. *)
Lemma exec_read_same (me : nat) (o : op) (c : Cfg) :
  read_op o = true -> locked_now c = true ->
  (exec _fetch_sess _post_sess me o c).2 = c.
Proof.
  intros Ho Hl. pose proof (silent_when_locked c Hl) as Hs.
  destruct o as [key | key v | key | | name | |]; try discriminate;
    unfold exec.
  - unfold mbind, M_bind. rewrite getitem_eq, Hs.
    by destruct (store (self c) !! lower key).
  - unfold mbind, M_bind, getattr.
    repeat case_bool_decide; try done.
    rewrite hook_eq. case_bool_decide as Hm; [| done].
    destruct (mutators_are_inherited name Hm) as [_ Hc].
    by apply bool_decide_eq_true_1 in Hc.
Qed.

Lemma read_is_mapping (o : @op value) :
  read_op o = true -> mapping_op o = true.
Proof. by destruct o. Qed.

Lemma body_of_read_same (me : nat) (os : list op) (c : Cfg) :
  forallb read_op os = true -> locked_now c = true ->
  (body_of _fetch_sess _post_sess me os c).2 = c /\
  forall l, (body_of _fetch_sess _post_sess me os c).1 <> Blocked l.
Proof.
  intros Hos Hl. induction os as [| o os IH]; simpl; [done |].
  apply andb_true_iff in Hos as [Ho Hos].
  pose proof (exec_read_same me o c Ho Hl) as Hsame.
  destruct (exec_mapping_frame me o c (read_is_mapping o Ho)) as [_ Hnb].
  unfold mbind, M_bind.
  destruct (exec _ _ me o c) as [[[] | e | l] c1]; simpl in *; subst c1.
  - by apply IH.
  - done.
  - by destruct (Hnb l).
Qed.

(** X8. While the lock of the session id is held, the body of a scope made
    of mapping operations issues no warning: it adds nothing to what an
    observer sees. *)
Theorem scope_body_is_silent (me : nat) (os : list op) (c : Cfg) :
  (is_locked c).1 = Ok true ->
  forallb mapping_op os = true ->
  trace (world (body_of _fetch_sess _post_sess me os c).2) = trace (world c).
Proof.
  rewrite is_locked_eq. simpl. intros [= Hl]. revert c Hl.
  induction os as [| o os IH]; intros c Hl Hos; simpl; [done |].
  apply andb_true_iff in Hos as [Ho Hos].
  pose proof (exec_mapping_trace me o c Ho Hl) as Ht.
  destruct (exec_mapping_frame me o c Ho) as [Hf _].
  apply locked_now_frame in Hf. rewrite Hl in Hf.
  unfold mbind, M_bind.
  destruct (exec _ _ me o c) as [[[] | e | l] c1]; simpl in *; try done.
  rewrite <- Ht. by apply IH.
Qed.

(** X9. A scope is not re-entrant: once a scope for a session id has been
    entered, every further [__aenter__] for that id, by the same task or
    another, through the same object or another, before the exit of the
    first, suspends for ever on the lock object of the first. *)
Theorem nested_entry_blocks (me me' : nat) (c c1 c2 : Cfg) :
  acquired_locks (lock_keeper (world c)) !! sid (self c) = None ->
  __aenter__ _fetch_sess me c = (Ok (), c1) ->
  world c2 = world c1 -> sid (self c2) = sid (self c) ->
  (__aenter__ _fetch_sess me' c2).1
    = Blocked (length (objects (lock_keeper (world c)))).
Proof.
  intros Hfree Henter Hw Hid.
  rewrite (aenter_free_eq me c Hfree) in Henter. cbv zeta in Henter.
  assert (Hk : lock_keeper (world c1)
               = (acquire me (sid (self c)) (lock_keeper (world c))).1).
  { destruct (_fetch_sess _ _) as [[e | r] b']; by inversion Henter. }
  rewrite (acquire_free _ _ _ Hfree) in Hk.
  unfold __aenter__, mbind, M_bind. rewrite aenter_acquire_eq. cbv zeta.
  rewrite Hid, Hw, Hk. unfold acquire; simpl.
  rewrite lookup_insert_eq, lookup_app_r, Nat.sub_diag by done. reflexivity.
Qed.

Lemma async_with_entered {A} (me : nat) (body : M A) (c : Cfg)
    (r : option payload) (b' : B) :
  acquired_locks (lock_keeper (world c)) !! sid (self c) = None ->
  _fetch_sess (sid (self c)) (backend (world c)) = (inr r, b') ->
  async_with _fetch_sess _post_sess me body c =
  match body (entered me r b' c) with
  | (Blocked l, c2) => (Blocked l, c2)
  | (rb, c2) =>
      match __aexit__ _post_sess c2 with
      | (Ok _, c3) => (rb, c3)
      | (Raise e, c3) => (Raise e, c3)
      | (Blocked l, c3) => (Blocked l, c3)
      end
  end.
Proof.
  intros Hfree Hfetch. unfold async_with.
  destruct (aenter_entered me c r b' Hfree Hfetch) as [-> _]. reflexivity.
Qed.

(** X10. A scope entered with the dirty flag unset, whose lock is free,
    whose fetch returns and whose body only reads, does not suspend and
    lets an observer see the call of [acquire], the fetch and the call of
    [release], in this order, and nothing else: no warning and no
    write-back. It leaves the backend as the fetch left it, the fetched
    payload in the store, the dirty flag unset and the lock free. *)
Theorem read_only_scope (me : nat) (os : list op) (c : Cfg)
    (r : option payload) (b' : B) :
  is_modified (self c) = false ->
  acquired_locks (lock_keeper (world c)) !! sid (self c) = None ->
  forallb read_op os = true ->
  _fetch_sess (sid (self c)) (backend (world c)) = (inr r, b') ->
  let id := sid (self c) in
  let run := async_with _fetch_sess _post_sess me
               (body_of _fetch_sess _post_sess me os) c in
  (forall l, run.1 <> Blocked l) /\
  trace (world run.2)
    = (trace (world c)
       ++ [AcquireCalled id; FetchCalled id; ReleaseCalled id])%list /\
  backend (world run.2) = b' /\
  store (self run.2) = default ∅ r /\
  is_modified (self run.2) = false /\
  acquired_locks (lock_keeper (world run.2)) !! id = None.
Proof.
  intros Hclean Hfree Hos Hfetch id run. subst run.
  rewrite (async_with_entered me _ c r b' Hfree Hfetch).
  destruct (aenter_entered me c r b' Hfree Hfetch) as [_ Hl].
  destruct (body_of_read_same me os _ Hos Hl) as [Hsame Hnb].
  destruct (body_of _ _ me os _) as [rb c2]. simpl in Hsame, Hnb. subst c2.
  rewrite aexit_eq. cbv zeta.
  destruct c as [[p i wl d] [k b t]]. simpl in *. subst d.
  destruct rb as [[] | e | l]; [| | by destruct (Hnb l)];
    unfold entered; simpl;
    rewrite release_lookup, or_empty_default, <- !app_assoc; by simpl.
Qed.

Lemma assignment_scope_facts (me : nat) (key : string) (v : value) (c : Cfg)
    (r : option payload) (b1 b2 : B) :
  acquired_locks (lock_keeper (world c)) !! sid (self c) = None ->
  _fetch_sess (sid (self c)) (backend (world c)) = (inr r, b1) ->
  let id := sid (self c) in
  let p := <[lower key := v]> (default ∅ r) in
  _post_sess id p b1 = (inr (), b2) ->
  let run := async_with _fetch_sess _post_sess me (__setitem__ key v) c in
  run.1 = Ok () /\
  trace (world run.2)
    = (trace (world c) ++ entry_events c
       ++ [FetchCalled id; PostCalled id p; ReleaseCalled id])%list /\
  backend (world run.2) = b2 /\
  store (self run.2) = p /\
  is_modified (self run.2) = false /\
  sid (self run.2) = id /\
  acquired_locks (lock_keeper (world run.2)) !! id = None.
Proof.
  intros Hfree Hfetch id p Hpost run. subst run.
  rewrite (async_with_entered me _ c r b1 Hfree Hfetch).
  destruct (aenter_entered me c r b1 Hfree Hfetch) as [_ Hl].
  rewrite setitem_eq, (silent_when_locked _ Hl), aexit_eq. cbv zeta.
  destruct c as [[q i wl d] [k b t]]. simpl in *.
  rewrite or_empty_default. fold p. subst id. rewrite Hpost. simpl.
  rewrite release_lookup, <- !app_assoc. done.
Qed.

(** X11. A scope whose lock is free and whose body assigns one item
    returns when its fetch and its write-back do. It writes back, once and
    before the release, the fetched payload with the item under the
    lower-cased key; the store holds that payload afterwards, the dirty
    flag is unset and the lock is free. *)
Theorem assignment_scope_writes_back
    (me : nat) (key : string) (v : value) (c : Cfg)
    (r : option payload) (b1 b2 : B) :
  acquired_locks (lock_keeper (world c)) !! sid (self c) = None ->
  _fetch_sess (sid (self c)) (backend (world c)) = (inr r, b1) ->
  let id := sid (self c) in
  let p := <[lower key := v]> (default ∅ r) in
  _post_sess id p b1 = (inr (), b2) ->
  let run := async_with _fetch_sess _post_sess me (__setitem__ key v) c in
  run.1 = Ok () /\
  trace (world run.2)
    = (trace (world c) ++ entry_events c
       ++ [FetchCalled id; PostCalled id p; ReleaseCalled id])%list /\
  backend (world run.2) = b2 /\
  store (self run.2) = p /\
  is_modified (self run.2) = false /\
  acquired_locks (lock_keeper (world run.2)) !! id = None.
Proof.
  intros Hfree Hfetch id p Hpost run.
  destruct (assignment_scope_facts me key v c r b1 b2 Hfree Hfetch Hpost)
    as (? & ? & ? & ? & ? & _ & ?).
  by repeat split.
Qed.

(** X12. An item assigned in one scope is read in the next scope for the
    same id, under any case variant of its key, when the backend returns
    from the fetch of the second scope the payload that the first scope
    wrote back. *)
Theorem next_scope_reads_the_write
    (me me' : nat) (key key' : string) (v : value) (c : Cfg)
    (r : option payload) (b1 b2 b3 : B) :
  acquired_locks (lock_keeper (world c)) !! sid (self c) = None ->
  _fetch_sess (sid (self c)) (backend (world c)) = (inr r, b1) ->
  let id := sid (self c) in
  let p := <[lower key := v]> (default ∅ r) in
  _post_sess id p b1 = (inr (), b2) ->
  _fetch_sess id b2 = (inr (Some p), b3) ->
  case_variant key key' ->
  let first := async_with _fetch_sess _post_sess me (__setitem__ key v) c in
  (async_with _fetch_sess _post_sess me' (__getitem__ key') first.2).1
    = Ok v.
Proof.
  intros Hfree Hfetch id p Hpost Hfetch2 Hk%case_variant_lower first.
  destruct (assignment_scope_facts me key v c r b1 b2 Hfree Hfetch Hpost)
    as (_ & _ & Hb & _ & Hclean & Hid & Hfree2).
  fold first in Hb, Hclean, Hid, Hfree2. subst id.
  rewrite <- Hid in Hfree2. rewrite <- Hb, <- Hid in Hfetch2.
  rewrite (async_with_entered me' _ first.2 (Some p) b3 Hfree2 Hfetch2).
  destruct (aenter_entered me' first.2 (Some p) b3 Hfree2 Hfetch2)
    as [_ Hl].
  rewrite getitem_eq, (silent_when_locked _ Hl), aexit_eq. cbv zeta.
  set (c2 := entered me' (Some p) b3 first.2).
  assert (Hs : store (self c2) = p).
  { unfold c2, entered; simpl. by case_decide. }
  assert (Hm : is_modified (self c2) = false) by exact Hclean.
  rewrite Hs, Hm. subst p. by rewrite <- Hk, lookup_insert_eq.
Qed.

(** X13. A scope entered with the dirty flag set, whose lock is free and
    whose body only reads, writes back the payload it has just fetched
    (the empty payload when the backend has none): after the warning about
    the mix of accesses, the call of [acquire] and the fetch, it calls
    [_post_sess] with the fetched payload and then [release]. *)
Theorem dirty_entry_writes_back_fetched (me : nat) (os : list op) (c : Cfg)
    (r : option payload) (b1 b2 : B) :
  is_modified (self c) = true ->
  acquired_locks (lock_keeper (world c)) !! sid (self c) = None ->
  forallb read_op os = true ->
  _fetch_sess (sid (self c)) (backend (world c)) = (inr r, b1) ->
  let id := sid (self c) in
  _post_sess id (default ∅ r) b1 = (inr (), b2) ->
  let run := async_with _fetch_sess _post_sess me
               (body_of _fetch_sess _post_sess me os) c in
  trace (world run.2)
    = (trace (world c)
       ++ [Warned UNLOCKED_LOCKED_ACCESS_MIX_MSG; AcquireCalled id;
           FetchCalled id; PostCalled id (default ∅ r);
           ReleaseCalled id])%list /\
  backend (world run.2) = b2 /\
  is_modified (self run.2) = false.
Proof.
  intros Hdirty Hfree Hos Hfetch id Hpost run. subst run.
  rewrite (async_with_entered me _ c r b1 Hfree Hfetch).
  destruct (aenter_entered me c r b1 Hfree Hfetch) as [_ Hl].
  destruct (body_of_read_same me os _ Hos Hl) as [Hsame Hnb].
  destruct (body_of _ _ me os _) as [rb c2]. simpl in Hsame, Hnb. subst c2.
  rewrite aexit_eq. cbv zeta.
  destruct c as [[p i wl d] [k b t]]. simpl in *. subst d id.
  destruct rb as [[] | e | l]; [| | by destruct (Hnb l)];
    unfold entered; simpl;
    rewrite or_empty_default, Hpost; simpl;
    by rewrite <- !app_assoc.
Qed.

(** *** More on tasks *)

Lemma acquire_registry_inv (me : nat) (id : string) (k : LockKeeper) :
  registry_inv k -> registry_inv (acquire me id k).1.
Proof.
  intros Hk. unfold acquire.
  destruct (acquired_locks k !! id) as [l |] eqn:Hid.
  - destruct (objects k !! l) as [lk |]; [| done].
    destruct (Lock_acquire me lk) as [lk' now]; simpl.
    intros id' l' Hl'; simpl in *. rewrite length_insert. by eapply Hk.
  - simpl. intros id' l' Hl'; simpl in *. rewrite length_app; simpl.
    destruct (decide (id = id')) as [<- |].
    + rewrite lookup_insert_eq in Hl'. inversion Hl'. lia.
    + rewrite lookup_insert_ne in Hl' by done. apply Hk in Hl'. lia.
Qed.

Lemma release_registry_inv (id : string) (k : LockKeeper) :
  registry_inv k -> registry_inv (release id k).
Proof.
  intros Hk id' l' Hl'. rewrite release_objects.
  destruct (decide (id' = id)) as [-> |].
  - by rewrite release_lookup in Hl'.
  - rewrite release_other in Hl' by done. by eapply Hk.
Qed.

Lemma step_registry_inv (σ σ' : System) :
  lock_inv σ -> registry_inv (lock_keeper (shared σ)) ->
  step _fetch_sess _post_sess σ σ' ->
  registry_inv (lock_keeper (shared σ')).
Proof.
  intros [Hk _] Hr Hstep.
  destruct Hstep as
    [σ i t g c' Hi Hpc Hrun | σ i t l lk lk' Hi Hpc Hl Hres
    | σ i t r c' Hi Hpc Hrun | σ i t o r c' Hi Hpc Ho Hrun
    | σ i t r c' Hi Hpc Hrun | σ i t r c' Hi Hpc Hrun]; simpl.
  - rewrite aenter_acquire_eq in Hrun. cbv zeta in Hrun.
    inversion Hrun; subst; simpl. by apply acquire_registry_inv.
  - destruct (Hk l lk Hl) as [_ Hw].
    rewrite (resume_never i lk Hw) in Hres. discriminate.
  - destruct (aenter_load_keeps (mkCfg (view t) (shared σ))) as [Hk' _].
    rewrite Hrun in Hk'; simpl in Hk'. by rewrite Hk'.
  - destruct (exec_mapping_frame i o (mkCfg (view t) (shared σ)) Ho)
      as [(Hk' & _) _].
    rewrite Hrun in Hk'; simpl in Hk'. by rewrite Hk'.
  - destruct (aexit_flush_keeps (mkCfg (view t) (shared σ))) as [Hk' _].
    rewrite Hrun in Hk'; simpl in Hk'. by rewrite Hk'.
  - rewrite aexit_release_eq in Hrun. inversion Hrun; subst; simpl.
    by apply release_registry_inv.
Qed.

Lemma reachable_registry_inv (σ : System) :
  reachable _fetch_sess _post_sess σ ->
  lock_inv σ /\ registry_inv (lock_keeper (shared σ)).
Proof.
  intros (σ0 & Hinit & Hrun).
  assert (H0 : lock_inv σ0 /\ registry_inv (lock_keeper (shared σ0))).
  { split; [by apply initial_inv |]. destruct Hinit as [-> _]. by intros ??. }
  clear Hinit. induction Hrun as [| σ1 σ2 σ3 Hstep _ IH]; [done |].
  destruct H0 as [Hinv Hreg]. apply IH. split.
  - by eapply step_inv.
  - by eapply step_registry_inv.
Qed.

(** X17. In every system the tasks can reach, [is_locked()] is true for
    each task that is between the grant of the lock and its release: the
    assertion after [lock_keeper.acquire] holds when the task resumes, and
    the accesses of the task in its scope issue no warning. *)
Theorem holder_sees_lock (σ : System) (i : nat) (t : Task) :
  reachable _fetch_sess _post_sess σ ->
  tasks σ !! i = Some t -> critical (at_pc t) = true ->
  (is_locked (mkCfg (view t) (shared σ))).1 = Ok true.
Proof.
  intros Hreach Hi Hc.
  destruct (reachable_registry_inv σ Hreach) as [[Hk [Hheld _]] Hr].
  rewrite is_locked_eq. simpl. unfold locked_now; simpl.
  destruct (Hheld i t Hi Hc) as [l Hl]. rewrite Hl.
  destruct (lookup_lt_is_Some_2 _ _ (Hr _ _ Hl)) as [lk Hlk].
  rewrite Hlk. simpl. unfold Lock_locked.
  destruct (Hk l lk Hlk) as [Hlocked _]. by rewrite Hlocked.
Qed.

End Properties.

(** ** More on the lock keeper *)

(** X14. The locks of different session ids do not interfere: acquiring
    or releasing the lock of one id leaves the entry of every other id as
    it is, and a task that asks for the lock of an id without entry is
    granted it at once, whatever locks of other ids are held or have just
    been released. *)
Theorem other_ids_do_not_interfere
    (me me' : nat) (id id' : string) (k : LockKeeper) :
  id' <> id ->
  acquired_locks (acquire me id k).1 !! id' = acquired_locks k !! id' /\
  acquired_locks (release id k) !! id' = acquired_locks k !! id' /\
  (acquired_locks k !! id' = None ->
   (acquire me' id' (acquire me id k).1).2 = Granted /\
   (acquire me' id' (release id k)).2 = Granted).
Proof.
  intros Hne.
  assert (Hacq : acquired_locks (acquire me id k).1 !! id'
                 = acquired_locks k !! id').
  { unfold acquire. destruct (acquired_locks k !! id) as [l |].
    - destruct (objects k !! l) as [lk |]; [| done].
      by destruct (Lock_acquire me lk).
    - simpl. by rewrite lookup_insert_ne. }
  assert (Hrel : acquired_locks (release id k) !! id'
                 = acquired_locks k !! id').
  { unfold release. destruct (acquired_locks k !! id); [| done].
    simpl. by rewrite lookup_delete_ne. }
  split; [done |]. split; [done |]. intros Hfree.
  split; unfold acquire at 1.
  - by rewrite Hacq, Hfree.
  - by rewrite Hrel, Hfree.
Qed.

(** ** The lock keeper *)

(** C3, as the code has it. Task 0 takes the lock of ["s"], task 1 asks for
    it and is suspended on the same lock object, task 0 releases: the
    entry of ["s"] is deleted although task 1 waits on its lock, the lock
    object stays locked, and the future of task 1 is not resolved, so that
    task 1 cannot resume. *)
Theorem release_orphans_waiter :
  let k1 := (acquire 0 "s" empty_keeper).1 in
  let k2 := (acquire 1 "s" k1).1 in
  let k3 := release "s" k2 in
  (acquire 0 "s" empty_keeper).2 = Granted /\
  (acquire 1 "s" k1).2 = Suspended 0 /\
  waiters_of "s" k2 = [1] /\
  acquired_locks k3 !! "s" = None /\
  objects k3 !! 0 = Some (mkLock true [(1, false)]) /\
  Lock_resume 1 (mkLock true [(1, false)]) = None.
Proof. by vm_compute. Qed.

(** ** AsyncPG *)

Section AsyncPG_properties.

Context {payload : Type}.
Variable encoder : payload -> string.
Variable decoder : string -> payload.

Lemma upsert_lookup (now : Z) (sid v : string) (e : Z)
    (t : gmap string AsyncPG.row) :
  exists created,
    AsyncPG.upsert now sid v e t !! sid
    = Some (AsyncPG.mkRow created (Some e) v).
Proof.
  unfold AsyncPG.upsert.
  destruct (t !! sid) as [r |]; rewrite lookup_insert_eq; eauto.
Qed.

(** C9. A payload stored with [expiry = T] when the client clock reads
    [utcnow] gets the expiry [utcnow + T]; as long as the codec round-trips
    it, a fetch made when the database clock reads less than [utcnow + T]
    returns it, and a fetch made when the clock reads [utcnow + T] or more
    returns nothing. *)
Theorem stored_payload_expires
    (p : payload) (t : gmap string AsyncPG.row) (sid : string)
    (now utcnow T later : Z) :
  decoder (encoder p) = p ->
  let t' := AsyncPG.store encoder now utcnow sid T (Some p) t in
  (AsyncPG.expires_at <$> t' !! sid) = Some (Some (utcnow + T)%Z) /\
  ((later < utcnow + T)%Z -> AsyncPG.fetch decoder later sid t' = Some p) /\
  ((utcnow + T <= later)%Z -> AsyncPG.fetch decoder later sid t' = None).
Proof.
  intros Hcodec t'. subst t'. unfold AsyncPG.store, AsyncPG.fetch,
    AsyncPG.select_val.
  destruct (upsert_lookup now sid (encoder p) (utcnow + T) t) as [cr ->].
  simpl. split; [reflexivity |]. split; intros Hlater.
  - rewrite (proj2 (Z.gtb_gt _ _)) by lia. by rewrite Hcodec.
  - destruct (Z.gtb_spec (utcnow + T) later); [lia | reflexivity].
Qed.

Lemma fetch_of_row (later : Z) (sid : string) (t : gmap string AsyncPG.row)
    (created e : Z) (v : string) :
  t !! sid = Some (AsyncPG.mkRow created (Some e) v) ->
  AsyncPG.fetch decoder later sid t
  = if (e >? later)%Z then Some (decoder v) else None.
Proof.
  intros Hrow. unfold AsyncPG.fetch, AsyncPG.select_val. rewrite Hrow. simpl.
  by destruct (e >? later)%Z.
Qed.

(** X18. The last [store] for an id wins: after two stores the row holds
    the value and the expiry of the second, so that a fetch returns the
    decoded second payload until that expiry, and the row keeps the
    creation time it had (that of the first store when the first store
    created it). *)
Theorem store_overwrites
    (p1 p2 : payload) (t : gmap string AsyncPG.row) (sid : string)
    (now1 utcnow1 T1 now2 utcnow2 T2 later : Z) :
  let t1 := AsyncPG.store encoder now1 utcnow1 sid T1 (Some p1) t in
  let t2 := AsyncPG.store encoder now2 utcnow2 sid T2 (Some p2) t1 in
  t2 !! sid
    = Some (AsyncPG.mkRow
              (match t !! sid with
               | Some r => AsyncPG.created_at r
               | None => now1
               end)
              (Some (utcnow2 + T2)%Z) (encoder p2)) /\
  AsyncPG.fetch decoder later sid t2
    = if (utcnow2 + T2 >? later)%Z then Some (decoder (encoder p2))
      else None.
Proof.
  intros t1 t2.
  assert (Hrow : t2 !! sid
    = Some (AsyncPG.mkRow
              (match t !! sid with
               | Some r => AsyncPG.created_at r
               | None => now1
               end)
              (Some (utcnow2 + T2)%Z) (encoder p2))).
  { subst t1 t2. unfold AsyncPG.store, AsyncPG.upsert.
    destruct (t !! sid) as [r |]; rewrite lookup_insert_eq;
      by rewrite lookup_insert_eq. }
  split; [exact Hrow |]. by rewrite (fetch_of_row later sid t2 _ _ _ Hrow).
Qed.

(** X19. [store] and [delete] for one id leave what [fetch] returns for
    every other id as it is, at any time; a [store] of [None] changes
    nothing at all. *)
Theorem other_sessions_untouched
    (v : option payload) (t : gmap string AsyncPG.row) (sid sid' : string)
    (now utcnow T later : Z) :
  sid' <> sid ->
  AsyncPG.fetch decoder later sid'
    (AsyncPG.store encoder now utcnow sid T v t)
  = AsyncPG.fetch decoder later sid' t /\
  AsyncPG.fetch decoder later sid' (AsyncPG.delete sid t)
  = AsyncPG.fetch decoder later sid' t /\
  AsyncPG.store encoder now utcnow sid T None t = t.
Proof.
  intros Hne. unfold AsyncPG.fetch, AsyncPG.select_val, AsyncPG.store,
    AsyncPG.upsert, AsyncPG.delete.
  split; [| split; [| reflexivity]].
  - destruct v as [p |]; [| done].
    destruct (t !! sid); by rewrite lookup_insert_ne.
  - by rewrite lookup_delete_ne.
Qed.

(** X20. After [delete] a fetch of the id returns nothing, at any time;
    deleting twice is deleting once; and a delete after a store leaves the
    table as a delete alone does. *)
Theorem delete_removes
    (v : option payload) (t : gmap string AsyncPG.row) (sid : string)
    (now utcnow T later : Z) :
  AsyncPG.fetch decoder later sid (AsyncPG.delete sid t) = None /\
  AsyncPG.delete sid (AsyncPG.delete sid t) = AsyncPG.delete sid t /\
  AsyncPG.delete sid (AsyncPG.store encoder now utcnow sid T v t)
  = AsyncPG.delete sid t.
Proof.
  unfold AsyncPG.fetch, AsyncPG.select_val, AsyncPG.store, AsyncPG.upsert,
    AsyncPG.delete.
  split; [by rewrite lookup_delete_eq |]. split.
  - apply map_eq. intros sid'. destruct (decide (sid = sid')) as [<- |].
    + by rewrite !lookup_delete_eq.
    + by rewrite !lookup_delete_ne.
  - destruct v as [p |]; [| done].
    destruct (t !! sid); by rewrite delete_insert_eq.
Qed.

(** X21. Without a store in between, a session that a fetch has reported
    absent is absent at every later time, and a payload fetched at some
    time is what every earlier fetch returned. *)
Theorem absent_stays_absent
    (t : gmap string AsyncPG.row) (sid : string) (now later : Z) :
  (now <= later)%Z ->
  (AsyncPG.fetch decoder now sid t = None ->
   AsyncPG.fetch decoder later sid t = None) /\
  (forall p, AsyncPG.fetch decoder later sid t = Some p ->
             AsyncPG.fetch decoder now sid t = Some p).
Proof.
  intros Hle. unfold AsyncPG.fetch, AsyncPG.select_val.
  destruct (t !! sid) as [[cr [e |] v] |]; simpl; try done.
  destruct (Z.gtb_spec e now), (Z.gtb_spec e later); try done; lia.
Qed.

End AsyncPG_properties.

(** * The properties on a session over the in-memory backend *)

Lemma keys_are_case_insensitive_witness :
  case_variant "Foo" "fOO" /\
  (__getitem__ "fOO" (__setitem__ "Foo" "bar" (fresh up)).2).1 = Ok "bar".
Proof.
  assert (H : case_variant "Foo" "fOO").
  { repeat constructor;
      first [ left; reflexivity
            | right; left; reflexivity
            | right; right; reflexivity ]. }
  split; [exact H |].
  exact (proj1 (proj2
    (keys_are_case_insensitive (fresh up) "Foo" "fOO" "bar" H))).
Defined.

Lemma unguarded_access_warns_witness :
  (is_locked (fresh up)).1 = Ok false /\
  warn_lock (self (fresh up)) = true /\
  trace (world (__setitem__ "foo" "bar" (fresh up)).2)
    = [Warned UNLOCKED_WARNING_MSG].
Proof.
  split; [reflexivity |]. split; [reflexivity |].
  exact (proj1 (proj1 (proj2
    (unguarded_access_warns (fresh up) "foo" "bar" eq_refl eq_refl)))).
Defined.

Lemma guarded_entry_discards_unguarded_writes_witness :
  is_modified (self unguarded_write) = true /\
  acquired_locks (lock_keeper (world unguarded_write))
    !! sid (self unguarded_write) = None /\
  memory_fetch (sid (self unguarded_write)) (backend (world unguarded_write))
    = (inr None, up) /\
  exists c',
    __aenter__ memory_fetch 0 unguarded_write = (Ok (), c') /\
    store (self c') = ∅.
Proof.
  split; [reflexivity |]. split; [reflexivity |]. split; [reflexivity |].
  destruct (guarded_entry_discards_unguarded_writes memory_fetch 0
              unguarded_write None up eq_refl eq_refl eq_refl)
    as (c' & Henter & _ & Hstore & _).
  exists c'. split; [exact Henter | exact Hstore].
Defined.

Lemma guarded_exit_writes_back_then_releases_witness :
  (is_modified (self unguarded_write) = true ->
   (memory_post "s" (store (self unguarded_write))
      (backend (world unguarded_write))).1 = inr ()) /\
  exists c',
    __aexit__ memory_post unguarded_write = (Ok (), c') /\
    is_modified (self c') = false.
Proof.
  assert (H : is_modified (self unguarded_write) = true ->
              (memory_post "s" (store (self unguarded_write))
                 (backend (world unguarded_write))).1 = inr ())
    by (intros _; reflexivity).
  split; [exact H |].
  destruct (guarded_exit_writes_back_then_releases memory_post
              unguarded_write H) as (c' & Hexit & Hclean & _).
  exists c'. split; [exact Hexit | exact Hclean].
Defined.

(** A scope does not release on every error. With a backend that cannot
    be reached, the scope
    of a new session dictionary raises the error of the fetch and leaves
    the lock of the id in [acquired_locks]; with a backend that can be
    read and not written, a scope that assigns an item raises the error of
    the write-back and leaves the lock as well; another task that enters a
    scope for the id afterwards is suspended on that lock. *)
Lemma scope_keeps_lock_on_backend_error :
  ~ releases_when_raising memory_fetch memory_post 0
      (body_of memory_fetch memory_post 0 []) (fresh down) /\
  ~ releases_when_raising memory_fetch memory_post 0
      (body_of memory_fetch memory_post 0 [Set_ "foo" "bar"])
      (fresh read_only) /\
  (__aenter__ memory_fetch 1
     (async_with memory_fetch memory_post 0
        (body_of memory_fetch memory_post 0 []) (fresh down)).2).1
  = Blocked 0.
Proof.
  split; [| split].
  - unfold releases_when_raising. intros H.
    set (run := async_with memory_fetch memory_post 0 _ _) in H.
    assert (E : run = (Raise (BackendFailure "fetch"), run.2))
      by (vm_compute; reflexivity).
    specialize (H _ _ E). vm_compute in H. discriminate.
  - unfold releases_when_raising. intros H.
    set (run := async_with memory_fetch memory_post 0 _ _) in H.
    assert (E : run = (Raise (BackendFailure "store"), run.2))
      by (vm_compute; reflexivity).
    specialize (H _ _ E). vm_compute in H. discriminate.
  - vm_compute. reflexivity.
Qed.

(** C2, where the code fails it. Over a backend that cannot be reached,
    [async with session: pass] raises the error of the fetch: [release]
    has not been called, the lock of the id is still in [acquired_locks]
    and is still locked, and another task that enters a scope for the id
    is suspended on it. Over a backend that can be read and not written,
    [async with session: session['foo'] = 'bar'] raises the error of the
    write-back, with the same outcome. *)
Theorem backend_error_keeps_lock :
  (scope_over_down.1 = Raise (BackendFailure "fetch") /\
   trace (world scope_over_down.2) = [AcquireCalled "s"; FetchCalled "s"] /\
   acquired_locks (lock_keeper (world scope_over_down.2)) !! "s" = Some 0 /\
   (is_locked scope_over_down.2).1 = Ok true /\
   (__aenter__ memory_fetch 1 scope_over_down.2).1 = Blocked 0) /\
  (scope_over_read_only.1 = Raise (BackendFailure "store") /\
   trace (world scope_over_read_only.2)
     = [AcquireCalled "s"; FetchCalled "s";
        PostCalled "s" {["foo" := "bar"]}] /\
   acquired_locks (lock_keeper (world scope_over_read_only.2)) !! "s"
     = Some 0 /\
   (is_locked scope_over_read_only.2).1 = Ok true /\
   (__aenter__ memory_fetch 1 scope_over_read_only.2).1 = Blocked 0).
Proof. repeat split; vm_compute; reflexivity. Qed.

(** C5, a counterexample. In a scope with an item assigned, over a backend
    that cannot be written, the exit calls the write-back, which raises:
    the exit does not call [release] and the dirty flag stays set. *)
Lemma exit_stops_at_failed_write_back :
  ~ exit_writes_back_then_releases memory_post dirty_in_scope /\
  (__aexit__ memory_post dirty_in_scope).1 = Raise (BackendFailure "store") /\
  trace (world (__aexit__ memory_post dirty_in_scope).2)
    = (trace (world dirty_in_scope)
       ++ [PostCalled "s" {["foo" := "bar"]}])%list /\
  is_modified (self (__aexit__ memory_post dirty_in_scope).2) = true /\
  acquired_locks (lock_keeper (world (__aexit__ memory_post dirty_in_scope).2))
    !! "s" = Some 0.
Proof.
  split; [| repeat split; vm_compute; reflexivity].
  unfold exit_writes_back_then_releases. intros [_ Hflag].
  vm_compute in Hflag. discriminate.
Qed.

Lemma scope_release_on_error_witness :
  acquired_locks (lock_keeper (world (fresh read_only)))
    !! sid (self (fresh read_only)) = None /\
  forallb (@mapping_op string) [Set_ "foo" "bar"] = true /\
  let scope :=
    async_with memory_fetch memory_post 0
      (body_of memory_fetch memory_post 0 [Set_ "foo" "bar"])
      (fresh read_only) in
  scope.1 = Raise (BackendFailure "store") /\
  is_Some (acquired_locks (lock_keeper (world scope.2)) !! "s").
Proof.
  split; [reflexivity |]. split; [reflexivity |].
  exact (proj1 (proj2
    (scope_release_on_error memory_fetch memory_post 0 [Set_ "foo" "bar"]
       (fresh read_only) eq_refl eq_refl) _ eq_refl)
    (BackendFailure "store") eq_refl eq_refl).
Defined.

(** C6, a counterexample. After an item assignment outside of a scope and
    the entry of a scope, the dirty flag is set although no operation has
    mutated the payload since it was loaded from the backend. *)
Lemma dirty_without_mutation_since_load :
  ~ dirty_implies memory_fetch memory_post
      mutates (syncs memory_fetch memory_post 0)
      0 [Set_ "foo" "bar"; Enter] (fresh up).
Proof.
  unfold dirty_implies. intros H. specialize (H eq_refl).
  vm_compute in H. discriminate.
Qed.

Lemma dirty_after_mark_witness :
  is_modified (self (fresh up)) = false /\
  dirty_implies memory_fetch memory_post marks (writes_back memory_post)
    0 [Set_ "foo" "bar"; Enter] (fresh up).
Proof.
  split; [reflexivity |].
  exact (dirty_after_mark memory_fetch memory_post 0
           [Set_ "foo" "bar"; Enter] (fresh up) eq_refl).
Defined.

Lemma stored_payload_expires_witness :
  id (id "bar") = "bar" /\
  AsyncPG.fetch id 59 "abc" (AsyncPG.store id 0 0 "abc" 60 (Some "bar") ∅)
    = Some "bar" /\
  AsyncPG.fetch id 61 "abc" (AsyncPG.store id 0 0 "abc" 60 (Some "bar") ∅)
    = None.
Proof.
  split; [reflexivity |].
  pose proof (stored_payload_expires id id "bar" ∅ "abc" 0 0 60) as H.
  split.
  - exact (proj1 (proj2 (H 59%Z eq_refl)) eq_refl).
  - refine (proj2 (proj2 (H 61%Z eq_refl)) _). vm_compute. discriminate.
Defined.

(** The lock is taken again once it has been released: task 0 runs its
    scope to the end, then task 1 is granted the lock of the same id. *)
Lemma second_scope_after_first :
  exists σ,
    schedule memory_fetch memory_post [0; 0; 0; 0; 1] two_tasks = Some σ /\
    at_pc <$> tasks σ = [Done; Holding].
Proof. eexists. split; vm_compute; reflexivity. Qed.

(** A task that asks for the lock while it is held waits, and still waits
    when the holder has left its scope. *)
Lemma contender_is_stranded :
  exists σ,
    schedule memory_fetch memory_post [0; 1; 0; 0; 0] two_tasks = Some σ /\
    at_pc <$> tasks σ = [Done; Waiting 0] /\
    advance memory_fetch memory_post 1 σ = None.
Proof. eexists. split; [| split]; vm_compute; reflexivity. Qed.

Lemma two_tasks_first_granted :
  reachable memory_fetch memory_post first_granted.
Proof.
  exists two_tasks. split.
  - split; [reflexivity |]. repeat constructor.
  - eapply rtc_l; [| apply rtc_refl].
    exact (step_acquire memory_fetch memory_post two_tasks 0
             (mkTask (init None "s" true) Start) Granted _
             eq_refl eq_refl eq_refl).
Defined.

Lemma mutual_exclusion_witness :
  reachable memory_fetch memory_post first_granted /\
  tasks first_granted !! 0 = Some (mkTask (init None "s" true) Holding) /\
  critical (at_pc (mkTask (@init string None "s" true) Holding)) = true /\
  0 = 0.
Proof.
  split; [exact two_tasks_first_granted |].
  split; [reflexivity |]. split; [reflexivity |].
  exact (mutual_exclusion memory_fetch memory_post first_granted
           two_tasks_first_granted 0 0
           (mkTask (init None "s" true) Holding)
           (mkTask (init None "s" true) Holding)
           eq_refl eq_refl eq_refl eq_refl eq_refl).
Defined.

(** * The further properties on a session over the in-memory backend *)

Lemma delitem_missing_key_witness :
  store (self (fresh up)) !! lower "Foo" = None /\
  (__delitem__ "Foo" (fresh up)).1 = Raise (KeyError "foo").
Proof.
  split; [reflexivity |].
  exact (proj1 (delitem_missing_key "Foo" (fresh up) eq_refl)).
Defined.

Lemma other_items_untouched_witness :
  lower "bar" <> lower "Foo" /\
  (__getitem__ "bar" (__setitem__ "Foo" "1" unguarded_write).2).1
  = (__getitem__ "bar" unguarded_write).1.
Proof.
  assert (H : lower "bar" <> lower "Foo") by (vm_compute; discriminate).
  split; [exact H |].
  exact (proj1 (other_items_untouched "Foo" "bar" "1" unguarded_write H)).
Defined.

Lemma setitem_then_delitem_witness :
  case_variant "Foo" "FOO" /\
  store (self (fresh up)) !! lower "Foo" = None /\
  store (self (__delitem__ "FOO" (__setitem__ "Foo" "bar" (fresh up)).2).2)
  = store (self (fresh up)).
Proof.
  assert (H : case_variant "Foo" "FOO").
  { repeat constructor;
      first [ left; reflexivity
            | right; left; reflexivity
            | right; right; reflexivity ]. }
  split; [exact H |]. split; [reflexivity |].
  exact (proj2 (setitem_then_delitem "Foo" "FOO" "bar" (fresh up) H eq_refl)).
Defined.

Lemma mixed_case_entry_is_out_of_reach_witness :
  lower "Foo" <> "Foo" /\
  store (self (__delitem__ "Foo"
                 (updated (<["Foo" := "bar"]> (store (self (fresh up))))
                    (is_modified (self (fresh up))) (fresh up))).2)
    !! "Foo" = Some "bar".
Proof.
  assert (H : lower "Foo" <> "Foo") by (vm_compute; discriminate).
  split; [exact H |].
  exact (proj1 (proj2
    (mixed_case_entry_is_out_of_reach "Foo" "Foo" "bar" "baz" (fresh up) H))).
Defined.

Lemma in_scope_entered :
  __aenter__ memory_fetch 0 (fresh up) = (Ok (), in_scope).
Proof. vm_compute. reflexivity. Defined.

Lemma scope_body_is_silent_witness :
  (is_locked in_scope).1 = Ok true /\
  forallb (@mapping_op string) [Set_ "foo" "bar"; Get "foo"; Reset] = true /\
  trace (world (body_of memory_fetch memory_post 0
                  [Set_ "foo" "bar"; Get "foo"; Reset] in_scope).2)
  = trace (world in_scope).
Proof.
  assert (H : (is_locked in_scope).1 = Ok true) by (vm_compute; reflexivity).
  split; [exact H |]. split; [reflexivity |].
  exact (scope_body_is_silent memory_fetch memory_post 0
           [Set_ "foo" "bar"; Get "foo"; Reset] in_scope H eq_refl).
Defined.

Lemma nested_entry_blocks_witness :
  acquired_locks (lock_keeper (world (fresh up))) !! sid (self (fresh up))
    = None /\
  __aenter__ memory_fetch 0 (fresh up) = (Ok (), in_scope) /\
  (__aenter__ memory_fetch 0 in_scope).1 = Blocked 0.
Proof.
  split; [reflexivity |]. split; [exact in_scope_entered |].
  exact (nested_entry_blocks memory_fetch 0 0 (fresh up) in_scope in_scope
           eq_refl in_scope_entered eq_refl eq_refl).
Defined.

Lemma read_only_scope_witness :
  is_modified (self (fresh up)) = false /\
  acquired_locks (lock_keeper (world (fresh up))) !! sid (self (fresh up))
    = None /\
  forallb (@read_op string) [Get "foo"] = true /\
  memory_fetch (sid (self (fresh up))) (backend (world (fresh up)))
    = (inr None, up) /\
  trace (world (async_with memory_fetch memory_post 0
                  (body_of memory_fetch memory_post 0 [Get "foo"])
                  (fresh up)).2)
  = [AcquireCalled "s"; FetchCalled "s"; ReleaseCalled "s"].
Proof.
  split; [reflexivity |]. split; [reflexivity |]. split; [reflexivity |].
  split; [reflexivity |].
  exact (proj1 (proj2
    (read_only_scope memory_fetch memory_post 0 [Get "foo"] (fresh up)
       None up eq_refl eq_refl eq_refl eq_refl))).
Defined.

Lemma foo_is_stored :
  memory_post "s" (<[lower "Foo" := "bar"]> (default ∅ None)) up
  = (inr (), foo_stored).
Proof. vm_compute. reflexivity. Defined.

Lemma foo_is_fetched :
  memory_fetch "s" foo_stored
  = (inr (Some (<[lower "Foo" := "bar"]> (default ∅ None))), foo_stored).
Proof. vm_compute. reflexivity. Defined.

Lemma assignment_scope_writes_back_witness :
  acquired_locks (lock_keeper (world (fresh up))) !! sid (self (fresh up))
    = None /\
  memory_fetch (sid (self (fresh up))) (backend (world (fresh up)))
    = (inr None, up) /\
  memory_post "s" (<[lower "Foo" := "bar"]> (default ∅ None)) up
    = (inr (), foo_stored) /\
  backend (world (async_with memory_fetch memory_post 0
                    (__setitem__ "Foo" "bar") (fresh up)).2)
  = foo_stored.
Proof.
  split; [reflexivity |]. split; [reflexivity |].
  split; [exact foo_is_stored |].
  exact (proj1 (proj2 (proj2
    (assignment_scope_writes_back memory_fetch memory_post 0 "Foo" "bar"
       (fresh up) None up foo_stored eq_refl eq_refl foo_is_stored)))).
Defined.

Lemma next_scope_reads_the_write_witness :
  case_variant "Foo" "FOO" /\
  (async_with memory_fetch memory_post 1 (__getitem__ "FOO")
     (async_with memory_fetch memory_post 0 (__setitem__ "Foo" "bar")
        (fresh up)).2).1
  = Ok "bar".
Proof.
  assert (H : case_variant "Foo" "FOO").
  { repeat constructor;
      first [ left; reflexivity
            | right; left; reflexivity
            | right; right; reflexivity ]. }
  split; [exact H |].
  exact (next_scope_reads_the_write memory_fetch memory_post 0 1 "Foo" "FOO"
           "bar" (fresh up) None up foo_stored foo_stored
           eq_refl eq_refl foo_is_stored foo_is_fetched H).
Defined.

Lemma dirty_entry_writes_back_fetched_witness :
  is_modified (self unguarded_write) = true /\
  forallb (@read_op string) [] = true /\
  trace (world (async_with memory_fetch memory_post 0
                  (body_of memory_fetch memory_post 0 [])
                  unguarded_write).2)
  = (trace (world unguarded_write)
     ++ [Warned UNLOCKED_LOCKED_ACCESS_MIX_MSG; AcquireCalled "s";
         FetchCalled "s"; PostCalled "s" ∅; ReleaseCalled "s"])%list.
Proof.
  split; [reflexivity |]. split; [reflexivity |].
  refine (proj1
    (dirty_entry_writes_back_fetched memory_fetch memory_post 0 []
       unguarded_write None up (memory_post "s" ∅ up).2
       eq_refl eq_refl eq_refl eq_refl _)).
  vm_compute. reflexivity.
Defined.

Lemma other_ids_do_not_interfere_witness :
  "t" <> "s" /\
  (acquire 1 "t" (acquire 0 "s" empty_keeper).1).2 = Granted.
Proof.
  assert (H : "t" <> "s") by discriminate.
  split; [exact H |].
  exact (proj1 (proj2 (proj2
    (other_ids_do_not_interfere 0 1 "s" "t" empty_keeper H)) eq_refl)).
Defined.


Lemma contended_reachable : reachable memory_fetch memory_post contended.
Proof.
  exists two_tasks. split.
  - split; [reflexivity |]. repeat constructor.
  - apply (schedule_steps memory_fetch memory_post [0; 1]).
    vm_compute. reflexivity.
Defined.

Lemma contended_to_stranded :
  rtc (step memory_fetch memory_post) contended stranded.
Proof.
  apply (schedule_steps memory_fetch memory_post [0; 0; 0]).
  vm_compute. reflexivity.
Defined.

Lemma waiter_never_resumes_witness :
  reachable memory_fetch memory_post contended /\
  tasks contended !! 1 = Some (mkTask (init None "s" true) (Waiting 0)) /\
  rtc (step memory_fetch memory_post) contended stranded /\
  (at_pc <$> (tasks stranded !! 0)) = Some Done /\
  tasks stranded !! 1 = Some (mkTask (init None "s" true) (Waiting 0)).
Proof.
  assert (H : tasks contended !! 1
              = Some (mkTask (init None "s" true) (Waiting 0)))
    by (vm_compute; reflexivity).
  split; [exact contended_reachable |]. split; [exact H |].
  split; [exact contended_to_stranded |].
  split; [vm_compute; reflexivity |].
  exact (waiter_never_resumes memory_fetch memory_post contended stranded 1
           (mkTask (init None "s" true) (Waiting 0)) 0
           contended_reachable H eq_refl contended_to_stranded).
Defined.

Lemma holder_sees_lock_witness :
  reachable memory_fetch memory_post contended /\
  tasks contended !! 0 = Some (mkTask (init None "s" true) Holding) /\
  (is_locked (mkCfg (init None "s" true) (shared contended))).1 = Ok true.
Proof.
  assert (H : tasks contended !! 0
              = Some (mkTask (init None "s" true) Holding))
    by (vm_compute; reflexivity).
  split; [exact contended_reachable |]. split; [exact H |].
  exact (holder_sees_lock memory_fetch memory_post contended 0
           (mkTask (init None "s" true) Holding)
           contended_reachable H eq_refl).
Defined.

Lemma other_sessions_untouched_witness :
  "abc" <> "xyz" /\
  AsyncPG.fetch id 10 "abc"
    (AsyncPG.store id 5 5 "xyz" 60 (Some "new")
       (AsyncPG.store id 0 0 "abc" 60 (Some "bar") ∅))
  = AsyncPG.fetch id 10 "abc" (AsyncPG.store id 0 0 "abc" 60 (Some "bar") ∅).
Proof.
  assert (H : "abc" <> "xyz") by discriminate.
  split; [exact H |].
  exact (proj1 (other_sessions_untouched id id (Some "new")
                  (AsyncPG.store id 0 0 "abc" 60 (Some "bar") ∅)
                  "xyz" "abc" 5 5 60 10 H)).
Defined.

Lemma absent_stays_absent_witness :
  (61 <= 100)%Z /\
  AsyncPG.fetch id 100 "abc" (AsyncPG.store id 0 0 "abc" 60 (Some "bar") ∅)
  = None.
Proof.
  assert (H : (61 <= 100)%Z) by discriminate.
  split; [exact H |].
  refine (proj1 (absent_stays_absent id
                   (AsyncPG.store id 0 0 "abc" 60 (Some "bar") ∅)
                   "abc" 61 100 H) _).
  vm_compute. reflexivity.
Defined.
